(** * Europa massive downloader: the ingestion pipeline

    A shallow embedding of [europa_massive_downloader.py]: the normaliser
    [extract_europa_metadata_from_string], the chunk fetcher
    [download_europa_chunk], the batch writer [save_datasets_batch], the
    key-set loader [get_existing_europa_urls] and the orchestration done by
    [main] (partitioning, the process pool, the drain loop and the final
    statistics).

    Python values are modelled as follows.
    - A [str] is the list of its code points ([len] counts code points).
    - A [dict] with string keys is a [gmap string value].
    - A [set] of strings is a [gset].
    - The table [datasets] is the list of its rows, oldest first.
    - Code that may raise returns a [res]: [Ret v] or [Raise e].
    - What the program cannot decide on its own (the answer of the remote
      catalogue, a database fault, the lines typed by the user, the order
      in which the pool completes the chunks) is an explicit argument. *)

From stdpp Require Import gmap strings list sets.
From Stdlib Require Import ZArith.

Local Open Scope Z_scope.

(** ** Python strings *)

Abbreviation pystr := (list N).

(** A literal of the source text, as code points. *)
Definition py (s : string) : pystr :=
  Ascii.N_of_ascii <$> String.list_ascii_of_string s.

(** [str.isspace] on one code point: the whitespace table of CPython. *)
Definition is_space (c : N) : bool :=
  ((9 <=? c) && (c <=? 13) || (28 <=? c) && (c <=? 32)
   || (c =? 133) || (c =? 160) || (c =? 5760)
   || (8192 <=? c) && (c <=? 8202)
   || (c =? 8232) || (c =? 8233) || (c =? 8239) || (c =? 8287)
   || (c =? 12288))%N.

Fixpoint lstrip (s : pystr) : pystr :=
  match s with
  | [] => []
  | c :: s' => if is_space c then lstrip s' else s
  end.

Definition rstrip (s : pystr) : pystr := reverse (lstrip (reverse s)).

(** [s.strip()] *)
Definition strip (s : pystr) : pystr := rstrip (lstrip s).

(** ** json.dumps on a string (ensure_ascii, the default) *)

Definition hex_digit (d : N) : N :=
  (if d <? 10 then 48 + d else 87 + d)%N.

(** ['\\u{0:04x}'.format(n)] for [n < 0x10000]. *)
Definition u_escape (n : N) : pystr :=
  [92; 117; hex_digit (n / 4096 mod 16); hex_digit (n / 256 mod 16);
   hex_digit (n / 16 mod 16); hex_digit (n mod 16)]%N.

Definition escape_char (c : N) : pystr :=
  (if c =? 92 then [92; 92]
   else if c =? 34 then [92; 34]
   else if c =? 8 then [92; 98]
   else if c =? 12 then [92; 102]
   else if c =? 10 then [92; 110]
   else if c =? 13 then [92; 114]
   else if c =? 9 then [92; 116]
   else if (32 <=? c) && (c <=? 126) then [c]
   else if c <? 65536 then u_escape c
   else
     let n := c - 65536 in
     u_escape (N.lor 55296 (N.land (N.shiftr n 10) 1023))
       ++ u_escape (N.lor 56320 (N.land n 1023)))%N.

Definition json_string (s : pystr) : pystr :=
  [34%N] ++ mjoin (escape_char <$> s) ++ [34%N].

(** ** Values held by a dataset dictionary *)

Inductive value :=
| VStr (s : pystr)
| VList (l : list pystr).

Global Instance value_eq_dec : EqDecision value.
Proof. solve_decision. Defined.

Global Instance value_countable : Countable value.
Proof.
  refine (inj_countable'
    (λ v, match v with VStr s => inl s | VList l => inr l end)
    (λ x, match x with inl s => VStr s | inr l => VList l end) _).
  by intros [].
Defined.

(** Python truth of a value: the empty string and the empty list are false. *)
Definition truthy (v : value) : bool :=
  match v with
  | VStr [] | VList [] => false
  | _ => true
  end.

(** A dataset is a [dict]; [{}] is the empty map. *)
Abbreviation dataset := (gmap string value).

(** [d.get(k, dflt)] *)
Definition get (d : dataset) (k : string) (dflt : value) : value :=
  default dflt (d !! k).

(** [d.get(k)] under a truth test: a missing key gives [None], which is false. *)
Definition get_truthy (d : dataset) (k : string) : bool :=
  from_option truthy false (d !! k).

(** [bool(d)] for a dictionary. *)
Definition nonempty (d : dataset) : bool := bool_decide (d ≠ ∅).

(** ** Exceptions *)

Inductive exn :=
| RequestException    (* requests: timeout, connection error *)
| JSONDecodeError     (* response.json() on a body that is not JSON *)
| DatabaseError       (* psycopg2: connect, execute or commit failed *)
| ValueError          (* int() on bad text; ProcessPoolExecutor(max_workers <= 0) *)
| EOFError            (* input() at the end of the input *)
| KeyError            (* d[k] on a missing key *)
| TypeError           (* a list used as a set element *)
| OverflowError       (* a number too large for a C int *)
| BrokenProcessPool.  (* a worker process died *)

Inductive res (A : Type) :=
| Ret (a : A)
| Raise (e : exn).
Arguments Ret {A} a.
Arguments Raise {A} e.

Global Instance res_ret : MRet res := λ A a, Ret a.

Global Instance res_bind : MBind res := λ A B k m,
  match m with
  | Ret a => k a
  | Raise e => Raise e
  end.

(** [try: m  except Exception: h] *)
Definition try_except {A} (m : res A) (h : exn → res A) : res A :=
  match m with
  | Ret a => Ret a
  | Raise e => h e
  end.

(** ** The normaliser *)

(** An entry of the response list.  [str(entry)] is the entry itself for
    a JSON string; for any other JSON value the entry carries the text that
    [str] prints for it. *)
Inductive raw_entry :=
| RawStr (s : pystr)
| RawOther (shown : pystr).

Definition py_str (e : raw_entry) : pystr :=
  match e with
  | RawStr s => s
  | RawOther shown => shown
  end.

(** [dataset_id = str(dataset_str).strip()] *)
Definition dataset_id_of (e : raw_entry) : pystr := strip (py_str e).

Definition url_prefix : pystr := py "https://data.europa.eu/data/datasets/".

Definition europa_source_url (dataset_id : pystr) : pystr :=
  url_prefix ++ dataset_id.

(** [json.dumps({'type': 'european_dataset', 'id': dataset_id})] *)
Definition concepts_json (dataset_id : pystr) : pystr :=
  py "{" ++ json_string (py "type") ++ py ": "
    ++ json_string (py "european_dataset") ++ py ", "
    ++ json_string (py "id") ++ py ": " ++ json_string dataset_id ++ py "}".

Definition europa_metadata (dataset_id : pystr) : dataset :=
  let source_url := europa_source_url dataset_id in
  list_to_map
    [ ("title", VStr (py "European Dataset " ++ dataset_id));
      ("description",
        VStr (py "Dataset from the European Data Portal with ID: "
                ++ dataset_id));
      ("keywords",
        VList [py "european data"; py "open data"; py "government data"]);
      ("source_url", VStr source_url);
      ("organization", VStr (py "European Data Portal"));
      ("publication_date", VStr []);
      ("last_modified_date", VStr []);
      ("format", VList [py "Unknown"]);
      ("license", VStr (py "Various European Licenses"));
      ("source_platform", VStr (py "data.europa.eu"));
      ("raw_id", VStr dataset_id);
      ("author", VStr (py "European Data Portal"));
      ("maintainer", VStr (py "European Data Portal"));
      ("download_url", VList [source_url]);
      ("groups", VList [py "european-data"; py "open-data"]);
      ("code", VStr dataset_id);
      ("data_availability", VStr (py "metadata_only"));
      ("metadata_availability", VStr (py "available"));
      ("concepts", VStr (concepts_json dataset_id)) ]%string.

(** [EuropaMassiveDownloader.extract_europa_metadata_from_string].  The body
    is wrapped in [try/except Exception] giving [{}]. *)
Definition extract_europa_metadata_from_string (dataset_str : raw_entry)
  : res dataset :=
  try_except
    (let dataset_id := dataset_id_of dataset_str in
     if bool_decide (dataset_id = []) || (length dataset_id <? 3)%nat
     then Ret ∅
     else Ret (europa_metadata dataset_id))
    (λ _, Ret ∅).


(** [metadata and metadata.get('source_url')] *)
Definition accepted (metadata : dataset) : bool :=
  nonempty metadata && get_truthy metadata "source_url".

(** [d[k]] *)
Definition subscript (d : dataset) (k : string) : res value :=
  match d !! k with
  | Some v => Ret v
  | None => Raise KeyError
  end.

(** [v in s] for a set [s]: a list cannot be hashed. *)
Definition set_contains (s : gset value) (v : value) : res bool :=
  match v with
  | VStr _ => Ret (bool_decide (v ∈ s))
  | VList _ => Raise TypeError
  end.

(** [s.add(v)] *)
Definition set_add (s : gset value) (v : value) : res (gset value) :=
  match v with
  | VStr _ => Ret ({[ v ]} ∪ s)
  | VList _ => Raise TypeError
  end.

(** ** The remote catalogue *)

Inductive json_value :=
| JsonList (data : list raw_entry)
| JsonOther.   (* an object, a string, a number, null *)

Inductive http_outcome :=
| RequestFails   (* [session.get] raises: timeout after 30 s, no connection *)
| Response (status_code : Z) (body : option json_value).
    (* [body = None]: the body is not JSON and [response.json()] raises *)

(** The catalogue answers a request [limit], [offset]. *)
Abbreviation catalogue := (Z → Z → http_outcome).

Definition session_get (remote : catalogue) (limit offset : Z)
  : res (Z * option json_value) :=
  match remote limit offset with
  | RequestFails => Raise RequestException
  | Response status_code body => Ret (status_code, body)
  end.

Definition response_json (body : option json_value) : res json_value :=
  match body with
  | Some data => Ret data
  | None => Raise JSONDecodeError
  end.

(** ** The chunk fetcher *)

(** The loop [for dataset_str in data] of [download_europa_chunk], with the
    list [datasets] built so far. *)
Fixpoint collect_datasets (existing_urls : gset value)
    (data : list raw_entry) (datasets : list dataset) : res (list dataset) :=
  match data with
  | [] => Ret datasets
  | dataset_str :: data' =>
      metadata ← extract_europa_metadata_from_string dataset_str;
      if accepted metadata then
        url ← subscript metadata "source_url";
        known ← set_contains existing_urls url;
        if (known : bool) then collect_datasets existing_urls data' datasets
        else collect_datasets existing_urls data' (datasets ++ [metadata])
      else collect_datasets existing_urls data' datasets
  end.

(** [download_europa_chunk(args)] with [args = (start_offset, chunk_size,
    existing_urls)]. *)
Definition download_europa_chunk (remote : catalogue)
    (args : Z * Z * gset value) : res (list dataset) :=
  let '(start_offset, chunk_size, existing_urls) := args in
  try_except
    (response ← session_get remote chunk_size start_offset;
     let '(status_code, body) := response in
     if bool_decide (status_code ≠ 200) then Ret []
     else
       data ← response_json body;
       match data with
       | JsonOther => Ret []
       | JsonList [] => Ret []
       | JsonList data => collect_datasets existing_urls data []
       end)
    (λ _, Ret []).

(** ** The table [datasets] *)

(** The columns that the program writes, as the values handed to the
    cursor.  The two dates are [None] when the dictionary has nothing true
    under their key. *)
Record row := Row {
  title : value;
  description : value;
  keywords : value;
  source_url : value;
  organization : value;
  publication_date : option value;
  last_modified_date : option value;
  format : value;
  license : value;
  source_platform : value;
  raw_id : value;
  author : value;
  maintainer : value;
  download_url : value;
  groups : value;
  code : value;
  data_availability : value;
  metadata_availability : value;
  concepts : value
}.

(** [d.get(k) or None] *)
Definition get_or_none (d : dataset) (k : string) : option value :=
  match d !! k with
  | Some v => if truthy v then Some v else None
  | None => None
  end.

(** The tuple that [save_datasets_batch] appends to [batch_data]. *)
Definition batch_tuple (d : dataset) : row :=
  {| title := get d "title" (VStr []);
     description := get d "description" (VStr []);
     keywords := get d "keywords" (VList []);
     source_url := get d "source_url" (VStr []);
     organization := get d "organization" (VStr []);
     publication_date := get_or_none d "publication_date";
     last_modified_date := get_or_none d "last_modified_date";
     format := get d "format" (VList []);
     license := get d "license" (VStr []);
     source_platform := get d "source_platform" (VStr []);
     raw_id := get d "raw_id" (VStr []);
     author := get d "author" (VStr []);
     maintainer := get d "maintainer" (VStr []);
     download_url := get d "download_url" (VList []);
     groups := get d "groups" (VList []);
     code := get d "code" (VStr []);
     data_availability := get d "data_availability" (VStr []);
     metadata_availability := get d "metadata_availability" (VStr []);
     concepts := get d "concepts" (VStr []) |}.

(** The deduplication key of a dataset, as the writer reads it. *)
Definition key_of (d : dataset) : value := source_url (batch_tuple d).

(** The keys held by a table. *)
Definition keys (table : list row) : list value := source_url <$> table.

(** [INSERT ... ON CONFLICT (source_url) DO NOTHING] of one tuple. *)
Definition insert_do_nothing (table : list row) (r : row) : list row :=
  if bool_decide (source_url r ∈ keys table) then table else table ++ [r].

(** [SELECT source_url FROM datasets WHERE source_platform = 'data.europa.eu'] *)
Definition is_europa (r : row) : bool :=
  bool_decide (source_platform r = VStr (py "data.europa.eu")).

Definition select_europa_urls (table : list row) : list value :=
  source_url <$> filter (λ r, is_europa r = true) table.

(** [SELECT COUNT( * ) FROM datasets WHERE source_platform = 'data.europa.eu'] *)
Definition count_europa (table : list row) : Z :=
  Z.of_nat (length (filter (λ r, is_europa r = true) table)).

(** [SELECT COUNT( * ) FROM datasets] *)
Definition count_all (table : list row) : Z := Z.of_nat (length table).

(** ** Connections and transactions *)

(** What goes wrong with the database during one use of a connection. *)
Inductive db_fault :=
| NoFault
| ConnectFault              (* [psycopg2.connect] raises *)
| StatementFault (k : nat)  (* the statement number [k] of the connection raises *)
| CommitFault.              (* [commit] raises *)

(** A connection: the table as committed, the table as the open transaction
    sees it, and the number of statements executed so far. *)
Record connection := Connection {
  committed : list row;
  pending : list row;
  executed : nat;
  fault : db_fault
}.

(** Code that runs on a connection: it may raise, and the connection keeps
    what was done before. *)
Definition tx (A : Type) : Type := connection → res A * connection.

Global Instance tx_ret : MRet tx := λ A a c, (Ret a, c).

Global Instance tx_bind : MBind tx := λ A B k m c,
  match m c with
  | (Ret a, c') => k a c'
  | (Raise e, c') => (Raise e, c')
  end.

(** [cursor.execute(stmt)]: [stmt] reads and changes the table of the open
    transaction. *)
Definition execute {A} (stmt : list row → A * list row) : tx A :=
  λ c, match fault c with
       | StatementFault k =>
           if bool_decide (k = executed c) then (Raise DatabaseError, c)
           else let '(a, t) := stmt (pending c) in
                (Ret a, Connection (committed c) t (S (executed c)) (fault c))
       | _ => let '(a, t) := stmt (pending c) in
              (Ret a, Connection (committed c) t (S (executed c)) (fault c))
       end.

(** A query leaves the table as it is. *)
Definition query {A} (q : list row → A) : tx A :=
  execute (λ t, (q t, t)).

(** [conn.commit()] *)
Definition commit : tx unit :=
  λ c, match fault c with
       | CommitFault => (Raise DatabaseError, c)
       | _ => (Ret (), Connection (pending c) (pending c) (executed c) (fault c))
       end.

(** [conn.rollback()] *)
Definition rollback (c : connection) : connection :=
  Connection (committed c) (committed c) (executed c) (fault c).

(** [cursor.executemany(insert_query, batch_data)]: one statement a tuple. *)
Fixpoint executemany (batch_data : list row) : tx unit :=
  match batch_data with
  | [] => mret ()
  | r :: batch_data' =>
      _ ← execute (λ t, ((), insert_do_nothing t r));
      executemany batch_data'
  end.

(** [EuropaMassiveDownloader.get_connection] *)
Definition get_connection (f : db_fault) (db : list row) : res connection :=
  match f with
  | ConnectFault => Raise DatabaseError
  | _ => Ret (Connection db db 0 f)
  end.

(** [with self.get_connection() as conn: body].  Leaving the block commits
    when [body] ended normally and rolls back when it raised.  The result is
    paired with the table as it is committed afterwards. *)
Definition with_connection {A} (f : db_fault) (db : list row) (body : tx A)
  : res A * list row :=
  match get_connection f db with
  | Raise e => (Raise e, db)
  | Ret conn =>
      match body conn with
      | (Ret a, conn') =>
          match commit conn' with
          | (Ret _, conn'') => (Ret a, committed conn'')
          | (Raise e, conn'') => (Raise e, committed (rollback conn''))
          end
      | (Raise e, conn') => (Raise e, committed (rollback conn'))
      end
  end.

(** ** The key-set loader and the batch writer *)

(** [EuropaMassiveDownloader.get_existing_europa_urls] *)
Definition get_existing_europa_urls (f : db_fault) (db : list row)
  : res (gset value) * list row :=
  let '(r, db') :=
    with_connection f db
      (rows ← query select_europa_urls;
       mret (list_to_set rows : gset value)) in
  (try_except r (λ _, Ret ∅), db').

(** The body of the [with] block of [save_datasets_batch]. *)
Definition save_transaction (datasets : list dataset) : tx Z :=
  let batch_data := batch_tuple <$> datasets in
  _ ← executemany batch_data;
  _ ← commit;
  mret (Z.of_nat (length batch_data)).

(** [EuropaMassiveDownloader.save_datasets_batch] *)
Definition save_datasets_batch (f : db_fault) (db : list row)
    (datasets : list dataset) : res Z * list row :=
  match datasets with
  | [] => (Ret 0, db)
  | _ =>
      let '(r, db') := with_connection f db (save_transaction datasets) in
      (try_except r (λ _, Ret 0), db')
  end.

(** ** The orchestrator: what [main] reads *)

(** A line typed at a prompt, as [int(input(...) or dflt)] sees it. *)
Inductive line :=
| Blank             (* an empty line: the default is taken *)
| Number (z : Z)    (* text that [int] accepts *)
| Garbage.          (* text that [int] refuses *)

(** [int(input(prompt) or dflt)] on the lines still to be read. *)
Definition input_int (dflt : Z) (lines : list line) : res Z * list line :=
  match lines with
  | [] => (Raise EOFError, [])
  | Blank :: lines' => (Ret dflt, lines')
  | Number z :: lines' => (Ret z, lines')
  | Garbage :: lines' => (Raise ValueError, lines')
  end.

(** The block [try: batch_size = ...; num_workers = ...
    except (ValueError, EOFError): batch_size = 100000; num_workers = 8]. *)
Definition read_sizes (lines : list line) : res (Z * Z) :=
  let attempt :=
    match input_int 100000 lines with
    | (Ret batch_size, lines') =>
        match input_int 8 lines' with
        | (Ret num_workers, _) => Ret (batch_size, num_workers)
        | (Raise e, _) => Raise e
        end
    | (Raise e, _) => Raise e
    end in
  try_except attempt
    (λ e, match e with
          | ValueError | EOFError => Ret (100000, 8)
          | _ => Raise e
          end).

(** ** Partitioning *)

Definition chunk_size : Z := 5000.

(** The loop [for i in range(num_chunks)] that builds [chunks].  In the
    source every tuple also carries a reference to the one set
    [existing_urls]; the copy that a worker receives is taken by the pool,
    see [snapshot]. *)
Definition make_chunks (start_offset num_chunks chunk_size : Z)
  : list (Z * Z) :=
  (λ i, (start_offset + i * chunk_size, chunk_size)) <$> seqZ 0 num_chunks.

(** The chunks of a job of [batch_size] datasets from [start_offset]. *)
Definition partition (start_offset batch_size chunk_size : Z)
  : list (Z * Z) :=
  let num_chunks := batch_size `div` chunk_size in
  make_chunks start_offset num_chunks chunk_size.

(** ** The process pool and the drain loop *)

(** One result handed back by [as_completed].
    - [chunk_index]: which chunk it is.
    - [staleness]: the arguments of a chunk are copied for its worker at
      some moment after [submit]; the copy of [existing_urls] is the set
      as it was [staleness] merges before this result is merged.
    - [worker_died]: [future.result()] raises.
    - [write_fault]: what goes wrong with the database while the batch of
      this chunk is saved. *)
Record completion := Completion {
  chunk_index : nat;
  staleness : nat;
  worker_died : bool;
  write_fault : db_fault
}.

(** One call of [save_datasets_batch] by the drain loop: the batch, the
    fault of the call, and [existing_urls] at the moment of the call. *)
Record handed_batch := Handed {
  batch : list dataset;
  batch_fault : db_fault;
  urls_at_call : gset value
}.

(** The variables of [main] during the drain loop, and the table.  The last
    two fields are not variables of the program: [earlier_urls] keeps the
    former states of [existing_urls], newest first, and [handed] lists the
    calls of [save_datasets_batch], oldest first. *)
Record job := Job {
  table : list row;
  existing_urls : gset value;
  total_saved : Z;
  chunk_count : Z;
  earlier_urls : list (gset value);
  handed : list handed_batch
}.

(** The copy of [existing_urls] that a worker receives. *)
Definition snapshot (st : job) (staleness : nat) : gset value :=
  default (existing_urls st)
    ((existing_urls st :: earlier_urls st)
       !! (staleness `min` length (earlier_urls st))%nat).

(** The loop [for dataset in datasets: existing_urls.add(dataset['source_url'])].
    The set is changed in place: what was added before a raise stays. *)
Fixpoint add_source_urls (datasets : list dataset) (urls : gset value)
  : res unit * gset value :=
  match datasets with
  | [] => (Ret (), urls)
  | d :: datasets' =>
      match (url ← subscript d "source_url"; set_add urls url) with
      | Ret urls' => add_source_urls datasets' urls'
      | Raise e => (Raise e, urls)
      end
  end.

(** The body of the loop [for future in as_completed(future_to_chunk)]. *)
Definition merge_result (remote : catalogue) (chunks : list (Z * Z))
    (st : job) (c : completion) : job :=
  match chunks !! chunk_index c with
  | None => st
  | Some (chunk_start, size) =>
      let result :=
        if worker_died c then Raise BrokenProcessPool
        else download_europa_chunk remote
               (chunk_start, size, snapshot st (staleness c)) in
      match result with
      | Raise _ => st                   (* except Exception *)
      | Ret [] => st                    (* "No datasets found" *)
      | Ret datasets =>
          let '(saved, table') :=
            save_datasets_batch (write_fault c) (table st) datasets in
          let handed' :=
            handed st ++ [Handed datasets (write_fault c) (existing_urls st)] in
          match saved with
          | Raise _ =>
              Job table' (existing_urls st) (total_saved st) (chunk_count st)
                (earlier_urls st) handed'
          | Ret saved =>
              let '(_, urls') := add_source_urls datasets (existing_urls st) in
              Job table' urls' (total_saved st + saved) (chunk_count st + 1)
                (existing_urls st :: earlier_urls st) handed'
          end
      end
  end.

(** [ProcessPoolExecutor(max_workers=num_workers)].  The constructor
    refuses a number of workers that is not positive with [ValueError].
    Beyond that the platform decides: [limit] tells what the constructor
    raises, if anything, for a positive number of workers. *)
Definition process_pool_executor (limit : Z → option exn)
    (num_workers : Z) : res unit :=
  if bool_decide (num_workers ≤ 0) then Raise ValueError
  else match limit num_workers with
       | Some e => Raise e
       | None => Ret ()
       end.

(** Where the semaphore of the call queue, of [max_workers + 1] places, is
    a C int: [OverflowError] from 2147483647 workers on. *)
Definition posix_limit (num_workers : Z) : option exn :=
  if bool_decide (2147483647 ≤ num_workers) then Some OverflowError
  else None.

(** On Windows: [ValueError] above 61 workers. *)
Definition windows_limit (num_workers : Z) : option exn :=
  if bool_decide (61 < num_workers) then Some ValueError else None.

(** The calls [executor.submit(download_europa_chunk, chunk)] for all the
    chunks.  The worker processes are started by a call of [submit]: when
    the system cannot start them the call raises [fault].  Without a chunk
    there is no call. *)
Definition submit_all (fault : option exn) (chunks : list (Z * Z))
  : res unit :=
  match chunks, fault with
  | _ :: _, Some e => Raise e
  | _, _ => Ret ()
  end.

(** The pool is made and the chunks are submitted. *)
Definition start_pool (limit : Z → option exn) (fault : option exn)
    (num_workers : Z) (chunks : list (Z * Z)) : res unit :=
  _ ← process_pool_executor limit num_workers;
  submit_all fault chunks.

(** ** [main] *)

(** What [main] meets while it runs. *)
Record environment := Environment {
  count_fault : db_fault;         (* during the first count *)
  urls_fault : db_fault;          (* during [get_existing_europa_urls] *)
  typed : list line;              (* the lines typed at the two prompts *)
  remote : catalogue;             (* the answers of data.europa.eu *)
  completions : list completion;  (* the results, in completion order *)
  stats_fault : db_fault;         (* during the final statistics *)
  pool_limit : Z → option exn;    (* what the platform refuses to the pool *)
  submit_fault : option exn       (* worker processes that cannot start *)
}.

(** The body of the last [with] block of [main]: the two counts. *)
Definition final_statistics : tx (Z * Z) :=
  total_europa ← query count_europa;
  total_all ← query count_all;
  mret (total_europa, total_all).

Definition start_job (db : list row) (urls : gset value) : job :=
  Job db urls 0 0 [] [].

Definition with_table (st : job) (db : list row) : job :=
  Job db (existing_urls st) (total_saved st) (chunk_count st)
    (earlier_urls st) (handed st).

(** [main] once [current_count] is known: from the call of
    [get_existing_europa_urls] to the final statistics.  The result is the
    pair [(total_europa, total_all)]. *)
Definition main_from (current_count : Z) (env : environment)
    (db : list row) : res (Z * Z) * job :=
  let '(r, db) := get_existing_europa_urls (urls_fault env) db in
  match r with
  | Raise e => (Raise e, start_job db ∅)
  | Ret existing_urls =>
  match read_sizes (typed env) with
  | Raise e => (Raise e, start_job db existing_urls)
  | Ret (batch_size, num_workers) =>
  let start_offset := current_count in
  let chunks := partition start_offset batch_size chunk_size in
  match start_pool (pool_limit env) (submit_fault env) num_workers chunks with
  | Raise e => (Raise e, start_job db existing_urls)
  | Ret _ =>
  let st :=
    foldl (merge_result (remote env) chunks)
      (start_job db existing_urls) (completions env) in
  let '(stats, db) :=
    with_connection (stats_fault env) (table st) final_statistics in
  (stats, with_table st db)
  end end end.

(** [main] *)
Definition main (env : environment) (db : list row) : res (Z * Z) * job :=
  let '(r, db) := with_connection (count_fault env) db (query count_europa) in
  match r with
  | Raise e => (Raise e, start_job db ∅)
  | Ret current_count => main_from current_count env db
  end.

(** ** Reference functions used by the statements *)

(** What [download_europa_chunk] keeps of one entry: nothing when the
    identifier is too short or when the key is in the set it was given. *)
Definition fresh_record (existing_urls : gset value) (e : raw_entry)
  : option dataset :=
  let dataset_id := dataset_id_of e in
  if (length dataset_id <? 3)%nat then None
  else if bool_decide (VStr (europa_source_url dataset_id) ∈ existing_urls)
       then None
       else Some (europa_metadata dataset_id).

Definition fresh_records (existing_urls : gset value) (data : list raw_entry)
  : list dataset :=
  omap (fresh_record existing_urls) data.

(** The entries of the page that the catalogue serves for a chunk: none
    unless the answer has status 200 and is a JSON list. *)
Definition page (remote : catalogue) (start_offset size : Z)
  : list raw_entry :=
  match remote size start_offset with
  | Response 200 (Some (JsonList data)) => data
  | _ => []
  end.

(** The offsets that a chunk asks for: [[start, start + size)]. *)
Definition in_chunk (x : Z) (c : Z * Z) : Prop := c.1 ≤ x < c.1 + c.2.

(** Whether a computation raised. *)
Definition raised {A} (r : res A) : bool :=
  match r with
  | Ret _ => false
  | Raise _ => true
  end.

(** Whether a fault strikes a transaction of [n] statements: the connection
    cannot be made, one of the [n] statements raises, or the commit does
    (see [raised_query], [raised_final_statistics], [raised_save_transaction]). *)
Definition strikes (f : db_fault) (n : nat) : bool :=
  match f with
  | NoFault => false
  | ConnectFault => true
  | StatementFault k => (k <? n)%nat
  | CommitFault => true
  end.

(** The table after the tuples of a batch have been inserted. *)
Definition insert_all (db : list row) (batch_data : list row) : list row :=
  foldl insert_do_nothing db batch_data.

(** The number of rows of a table under a key. *)
Definition rows_with_key (k : value) (db : list row) : nat :=
  length (filter (λ r, source_url r = k) db).

(** What [read_sizes] gives: the pair [(batch_size, num_workers)]. *)
Definition sizes (lines : list line) : Z * Z :=
  match read_sizes lines with
  | Ret p => p
  | Raise _ => (100000, 8)
  end.

(** The state of the drain loop after a result has been merged, when the
    chunk exists, the worker lived and the fetcher returned [datasets],
    not empty. *)
Definition merged (st : job) (c : completion) (datasets : list dataset)
  : job :=
  let hit := strikes (write_fault c) (length datasets) in
  Job (if hit then table st
       else insert_all (table st) (batch_tuple <$> datasets))
      (list_to_set (key_of <$> datasets) ∪ existing_urls st)
      (total_saved st + (if hit then 0 else Z.of_nat (length datasets)))
      (chunk_count st + 1)
      (existing_urls st :: earlier_urls st)
      (handed st ++ [Handed datasets (write_fault c) (existing_urls st)]).

(** ** Invariants of the drain loop *)

(** The keys of the table are distinct, and every record of a batch that was
    saved without a fault has its key in the table. *)
Definition keys_settled (st : job) : Prop :=
  NoDup (keys (table st))
  ∧ ∀ h d, h ∈ handed st →
      strikes (batch_fault h) (length (batch h)) = false →
      d ∈ batch h → key_of d ∈ keys (table st).

(** Every key that the orchestrator knows, now or earlier, is in the table. *)
Definition known_in_table (st : job) : Prop :=
  (∀ u, u ∈ existing_urls st → u ∈ keys (table st))
  ∧ (∀ s u, s ∈ earlier_urls st → u ∈ s → u ∈ keys (table st)).

(** Every entry of the page of a chunk that the normaliser accepts has its
    key in the table. *)
Definition page_stored (remote : catalogue) (chunk : Z * Z) (db : list row)
  : Prop :=
  ∀ e, e ∈ page remote chunk.1 chunk.2 →
       (3 ≤ length (dataset_id_of e))%nat →
       VStr (europa_source_url (dataset_id_of e)) ∈ keys db.

(** A result whose worker lived and whose batch met no database fault. *)
Definition undisturbed (c : completion) : bool :=
  negb (worker_died c)
  && match write_fault c with NoFault => true | _ => false end.

(** Every one of the first [n] chunks has a result among [cs]. *)
Definition covers (n : nat) (cs : list completion) : bool :=
  forallb (λ i, existsb (λ c, Nat.eqb (chunk_index c) i) cs) (seq 0 n).

(** A run of [main_from] in which the pool is made, every chunk completes,
    no worker dies and no batch meets a database fault. *)
Definition clean_run (current_count : Z) (env : environment) : bool :=
  negb (raised
          (start_pool (pool_limit env) (submit_fault env)
             (sizes (typed env)).2
             (partition current_count (sizes (typed env)).1 chunk_size)))
  && forallb undisturbed (completions env)
  && covers
       (length (partition current_count (sizes (typed env)).1 chunk_size))
       (completions env).

(** ** Sample inputs *)

Definition abc : raw_entry := RawStr (py "abc").
Definition xyz : raw_entry := RawStr (py " xyz ").
Definition ab : raw_entry := RawStr (py " ab ").

Definition abc_record : dataset := europa_metadata (py "abc").
Definition xyz_record : dataset := europa_metadata (py "xyz").

Definition abc_url : value := VStr (europa_source_url (py "abc")).

(** A catalogue that serves the same page at every offset. *)
Definition serving (data : list raw_entry) : catalogue :=
  λ _ _, Response 200 (Some (JsonList data)).

(** Two chunks whose pages both hold [abc]; both workers received the set
    of known keys as it was when the job started. *)
Definition racing : environment :=
  Environment NoFault NoFault [Number 10000; Blank] (serving [abc])
    [Completion 0 1 false NoFault; Completion 1 1 false NoFault] NoFault
    posix_limit None.

(** The key set cannot be loaded; nothing else goes wrong. *)
Definition no_key_set : environment :=
  Environment NoFault ConnectFault [Number 5000; Blank] (serving [abc])
    [Completion 0 0 false NoFault] NoFault
    posix_limit None.

(** Initializing goes well; the final statistics cannot be read. *)
Definition no_statistics : environment :=
  Environment NoFault NoFault [Number 5000; Blank] (serving [abc])
    [Completion 0 0 false NoFault] ConnectFault
    posix_limit None.

(** A first run over two chunks that goes well, and a second one over the
    same pages in which the key set cannot be loaded, so that every record
    is fetched and handed to the writer again. *)
Definition first_run : environment :=
  Environment NoFault NoFault [Number 10000; Blank] (serving [abc; xyz])
    [Completion 1 0 false NoFault; Completion 0 0 false NoFault] NoFault
    posix_limit None.

Definition second_run : environment :=
  Environment NoFault ConnectFault [Number 10000; Number 2]
    (serving [abc; xyz])
    [Completion 0 3 false NoFault; Completion 1 1 false NoFault] NoFault
    posix_limit None.

(** ** Further reference functions *)

(** A string made of whitespace only. *)
Definition all_space (s : pystr) : bool := forallb is_space s.

(** A printable ASCII code point. *)
Definition printable (c : N) : bool := ((32 <=? c) && (c <=? 126))%N.

(** What the drain loop adds to [total_saved] for one call of the writer. *)
Definition reported (h : handed_batch) : Z :=
  if strikes (batch_fault h) (length (batch h)) then 0
  else Z.of_nat (length (batch h)).

(** The key that the normaliser derives from an entry. *)
Definition entry_key (e : raw_entry) : value :=
  VStr (europa_source_url (dataset_id_of e)).

(** The keys of the entries of a page that the normaliser accepts, in page
    order. *)
Definition page_keys (data : list raw_entry) : list value :=
  entry_key <$> filter (λ e, (3 ≤ length (dataset_id_of e))%nat) data.

(** A result that changes nothing whatever the state of the job: the worker
    died, or the page of the chunk is empty (failed request, bad status,
    body that is not a list, empty list). *)
Definition fruitless (remote : catalogue) (chunks : list (Z * Z))
    (c : completion) : bool :=
  worker_died c
  || match chunks !! chunk_index c with
     | Some (chunk_start, size) =>
         bool_decide (page remote chunk_start size = [])
     | None => true
     end.

(** A first prompt answered well and a second one answered badly. *)
Definition half_typed : list line := [Number 20000; Garbage].

(** A job of fewer datasets than one chunk. *)
Definition small_job : environment :=
  Environment NoFault NoFault [Number 4999; Blank] (serving [abc])
    [Completion 0 0 false NoFault] NoFault
    posix_limit None.

(** A row made by the normaliser from an entry of the page of one of the
    chunks. *)
Definition from_pages (remote : catalogue) (chunks : list (Z * Z)) (r : row)
  : Prop :=
  ∃ chunk e, chunk ∈ chunks ∧ e ∈ page remote chunk.1 chunk.2
             ∧ (3 ≤ length (dataset_id_of e))%nat
             ∧ r = batch_tuple (europa_metadata (dataset_id_of e)).

(** The table of the job is the table [db] followed by rows from the pages. *)
Definition grown_from (remote : catalogue) (chunks : list (Z * Z))
    (db : list row) (st : job) : Prop :=
  ∃ added, table st = db ++ added ∧ ∀ r, r ∈ added → from_pages remote chunks r.

(** The counters of the drain loop agree with the calls of the writer. *)
Definition counted (db : list row) (st : job) : Prop :=
  chunk_count st = Z.of_nat (length (handed st))
  ∧ total_saved st = foldr Z.add 0 (reported <$> handed st)
  ∧ Z.of_nat (length (table st)) ≤ Z.of_nat (length db) + total_saved st.

(** The key of every record handed to the writer is known to the
    orchestrator. *)
Definition batches_known (st : job) : Prop :=
  ∀ h d, h ∈ handed st → d ∈ batch h → key_of d ∈ existing_urls st.

(** A write that fails in the first of two chunks with the same page. *)
Definition failing_write : environment :=
  Environment NoFault NoFault [Number 10000; Blank] (serving [abc])
    [Completion 0 0 false CommitFault; Completion 1 0 false NoFault] NoFault
    posix_limit None.

(** Initializing goes well; the user asks for 2147483647 workers. *)
Definition too_many_workers : environment :=
  Environment NoFault NoFault [Number 5000; Number 2147483647]
    (serving [abc]) [] NoFault posix_limit None.

(** A run of one chunk whose batch is lost to a failing commit, and the
    same run without the fault. *)
Definition lost_write : environment :=
  Environment NoFault NoFault [Number 5000; Blank] (serving [abc])
    [Completion 0 0 false CommitFault] NoFault posix_limit None.

Definition retried : environment :=
  Environment NoFault NoFault [Number 5000; Blank] (serving [abc])
    [Completion 0 0 false NoFault] NoFault posix_limit None.

(** A catalogue that serves [abc] at offset 0 and [xyz] elsewhere, and a
    run of one chunk over it. *)
Definition by_offset : catalogue :=
  λ _ offset,
    Response 200
      (Some (JsonList (if bool_decide (offset = 0) then [abc] else [xyz]))).

Definition resuming : environment :=
  Environment NoFault NoFault [Number 5000; Blank] by_offset
    [Completion 0 0 false NoFault] NoFault posix_limit None.

(** * Properties *)

(** ** The normaliser *)

Lemma lookup_source_url_europa_metadata dataset_id :
  europa_metadata dataset_id !! "source_url"%string
  = Some (VStr (europa_source_url dataset_id)).
Proof. reflexivity. Qed.

Lemma europa_metadata_nonempty dataset_id : europa_metadata dataset_id ≠ ∅.
Proof.
  intros E. pose proof (lookup_source_url_europa_metadata dataset_id) as L.
  rewrite E, lookup_empty in L. discriminate.
Qed.

Lemma key_of_europa_metadata dataset_id :
  key_of (europa_metadata dataset_id) = VStr (europa_source_url dataset_id).
Proof. reflexivity. Qed.

Lemma raw_id_europa_metadata dataset_id :
  raw_id (batch_tuple (europa_metadata dataset_id)) = VStr dataset_id.
Proof. reflexivity. Qed.

Lemma accepted_europa_metadata dataset_id :
  accepted (europa_metadata dataset_id) = true.
Proof.
  unfold accepted, nonempty, get_truthy.
  rewrite lookup_source_url_europa_metadata.
  rewrite bool_decide_eq_true_2 by apply europa_metadata_nonempty.
  reflexivity.
Qed.

Lemma accepted_empty : accepted ∅ = false.
Proof. reflexivity. Qed.

(** The normaliser never raises, and its answer depends on the length of the
    trimmed identifier only. *)
Lemma extract_europa_metadata_from_string_eq e :
  extract_europa_metadata_from_string e
  = Ret (if (length (dataset_id_of e) <? 3)%nat then ∅
         else europa_metadata (dataset_id_of e)).
Proof.
  unfold extract_europa_metadata_from_string.
  destruct (dataset_id_of e) as [|c1 [|c2 [|c3 s]]]; reflexivity.
Qed.

Lemma europa_source_url_inj a b :
  europa_source_url a = europa_source_url b → a = b.
Proof. unfold europa_source_url. apply app_inv_head. Qed.

(** ** The chunk fetcher *)

Lemma collect_datasets_eq existing_urls data datasets :
  collect_datasets existing_urls data datasets
  = Ret (datasets ++ fresh_records existing_urls data).
Proof.
  revert datasets. induction data as [|e data IH]; intros datasets; simpl.
  - by rewrite app_nil_r.
  - rewrite extract_europa_metadata_from_string_eq. simpl.
    unfold fresh_records. simpl. unfold fresh_record at 1.
    destruct (length (dataset_id_of e) <? 3)%nat.
    + rewrite accepted_empty. apply IH.
    + rewrite accepted_europa_metadata.
      unfold subscript. rewrite lookup_source_url_europa_metadata. simpl.
      destruct (bool_decide _).
      * apply IH.
      * rewrite IH. simpl. by rewrite <- app_assoc.
Qed.

(** The fetcher never raises: it returns the fresh records of the page. *)
Lemma download_europa_chunk_eq remote start_offset size existing_urls :
  download_europa_chunk remote (start_offset, size, existing_urls)
  = Ret (fresh_records existing_urls (page remote start_offset size)).
Proof.
  unfold download_europa_chunk, page, session_get.
  destruct (remote size start_offset) as [|status_code body]; simpl; [done|].
  destruct (decide (status_code = 200)) as [->|Hne].
  - simpl. destruct body as [[[|e data]|]|]; simpl; try done.
    pose proof (collect_datasets_eq existing_urls (e :: data) []) as E.
    simpl in E. simpl. by rewrite E.
  - rewrite bool_decide_eq_true_2 by done.
    destruct status_code as [|p|p]; try done.
    do 8 (destruct p as [p|p|]; try done).
Qed.

Lemma elem_of_fresh_records existing_urls data d :
  d ∈ fresh_records existing_urls data ↔
  ∃ e, e ∈ data ∧ (3 ≤ length (dataset_id_of e))%nat
       ∧ (VStr (europa_source_url (dataset_id_of e)) ∉ existing_urls)
       ∧ d = europa_metadata (dataset_id_of e).
Proof.
  unfold fresh_records. rewrite list_elem_of_omap. unfold fresh_record.
  split.
  - intros (e & He & Hd). exists e.
    destruct (Nat.ltb_spec (length (dataset_id_of e)) 3); [done|].
    case_bool_decide; [done|]. naive_solver.
  - intros (e & He & Hlen & Hnew & ->). exists e. split; [done|].
    destruct (Nat.ltb_spec (length (dataset_id_of e)) 3); [lia|].
    by rewrite bool_decide_eq_false_2.
Qed.

(** C7: the chunk fetcher never raises; when the request fails, when
    the status is not 200, and when the body is not a JSON list, it returns
    the empty list. *)
Theorem download_europa_chunk_captures_failures :
  (∀ remote args, ∃ datasets, download_europa_chunk remote args = Ret datasets)
  ∧ (∀ remote start_offset size existing_urls,
       remote size start_offset = RequestFails →
       download_europa_chunk remote (start_offset, size, existing_urls)
       = Ret [])
  ∧ (∀ remote start_offset size existing_urls status_code body,
       remote size start_offset = Response status_code body →
       status_code ≠ 200 →
       download_europa_chunk remote (start_offset, size, existing_urls)
       = Ret [])
  ∧ (∀ remote start_offset size existing_urls body,
       remote size start_offset = Response 200 body →
       (∀ data, body ≠ Some (JsonList data)) →
       download_europa_chunk remote (start_offset, size, existing_urls)
       = Ret []).
Proof.
  split; [|split; [|split]].
  - intros remote [[start_offset size] existing_urls].
    rewrite download_europa_chunk_eq. eauto.
  - intros remote start_offset size existing_urls E.
    rewrite download_europa_chunk_eq. unfold page. by rewrite E.
  - intros remote start_offset size existing_urls status_code body E Hne.
    rewrite download_europa_chunk_eq. unfold page. rewrite E.
    destruct status_code as [|p|p]; try done.
    do 8 (destruct p as [p|p|]; try done).
  - intros remote start_offset size existing_urls body E Hbody.
    rewrite download_europa_chunk_eq. unfold page. rewrite E.
    destruct body as [[data|]|]; try done. by destruct (Hbody data).
Qed.

Lemma download_europa_chunk_captures_failures_witness :
  download_europa_chunk (λ _ _, RequestFails) (0, 5000, ∅) = Ret []
  ∧ download_europa_chunk (λ _ _, Response 503 None) (0, 5000, ∅) = Ret []
  ∧ download_europa_chunk (λ _ _, Response 200 (Some JsonOther)) (0, 5000, ∅)
    = Ret [].
Proof.
  destruct download_europa_chunk_captures_failures as (_ & H1 & H2 & H3).
  split; [|split].
  - by apply H1.
  - by eapply H2.
  - eapply H3; [done|]. intros data. discriminate.
Defined.

(** C8: an entry whose trimmed identifier has fewer than 3 characters
    (the empty identifier included) makes the normaliser return the empty
    dictionary, without raising, and no record made from that identifier is
    in what the chunk fetcher returns. *)
Theorem short_identifier_rejected (e : raw_entry) :
  (length (dataset_id_of e) < 3)%nat →
  extract_europa_metadata_from_string e = Ret ∅
  ∧ accepted ∅ = false
  ∧ ∀ remote args datasets d,
      download_europa_chunk remote args = Ret datasets →
      d ∈ datasets →
      d ≠ europa_metadata (dataset_id_of e)
      ∧ d !! "raw_id"%string ≠ Some (VStr (dataset_id_of e)).
Proof.
  intros Hshort. split; [|split; [done|]].
  - rewrite extract_europa_metadata_from_string_eq.
    by destruct (Nat.ltb_spec (length (dataset_id_of e)) 3); [|lia].
  - intros remote [[start_offset size] existing_urls] datasets d.
    rewrite download_europa_chunk_eq. intros [= <-].
    rewrite elem_of_fresh_records. intros (e' & _ & Hlen & _ & ->).
    split.
    + intros E. apply (f_equal key_of) in E.
      rewrite !key_of_europa_metadata in E.
      injection E as E. rewrite E in Hlen. lia.
    + change (europa_metadata (dataset_id_of e') !! "raw_id"%string)
        with (Some (VStr (dataset_id_of e'))).
      intros [= E]. rewrite E in Hlen. lia.
Qed.

Lemma short_identifier_rejected_witness :
  extract_europa_metadata_from_string ab = Ret ∅
  ∧ ∀ d, d ∈ fresh_records ∅ [abc; ab] →
         d ≠ europa_metadata (dataset_id_of ab).
Proof.
  assert (length (dataset_id_of ab) < 3)%nat as Hshort by (vm_compute; lia).
  destruct (short_identifier_rejected ab Hshort) as (H1 & _ & H2).
  split; [exact H1|].
  intros d Hd.
  apply (H2 (serving [abc; ab]) (0, 5000, ∅) _ d
           (download_europa_chunk_eq _ _ _ _) Hd).
Defined.

(** C3, as stated, fails: the entry [abc] is accepted by the normaliser
    and is on the page of the chunk, yet the fetcher returns nothing, because
    the key of its record is in the set of known keys that the fetcher was
    given. *)
Lemma fetcher_drops_known_entry :
  extract_europa_metadata_from_string abc = Ret abc_record
  ∧ accepted abc_record = true
  ∧ key_of abc_record = abc_url
  ∧ page (serving [abc]) 0 5000 = [abc]
  ∧ download_europa_chunk (serving [abc]) (0, 5000, {[abc_url]}) = Ret [].
Proof. repeat split; vm_compute; reflexivity. Qed.

(** C3, amended: the chunk fetcher filters against the set of known keys
    that it was given.  An entry of the page that the normaliser accepts is
    in the returned list exactly when its key is not in that set. *)
Theorem download_europa_chunk_filters_known
    remote start_offset size existing_urls e metadata :
  e ∈ page remote start_offset size →
  extract_europa_metadata_from_string e = Ret metadata →
  accepted metadata = true →
  ∃ datasets,
    download_europa_chunk remote (start_offset, size, existing_urls)
    = Ret datasets
    ∧ (metadata ∈ datasets ↔ key_of metadata ∉ existing_urls).
Proof.
  intros He. rewrite extract_europa_metadata_from_string_eq.
  intros [= <-] Hacc.
  destruct (Nat.ltb_spec (length (dataset_id_of e)) 3) as [|Hlen];
    [by rewrite accepted_empty in Hacc|].
  eexists. split; [apply download_europa_chunk_eq|].
  rewrite elem_of_fresh_records, key_of_europa_metadata. split.
  - intros (e' & _ & _ & Hnew & E).
    apply (f_equal key_of) in E. rewrite !key_of_europa_metadata in E.
    by rewrite E.
  - intros Hnew. by exists e.
Qed.

Lemma download_europa_chunk_filters_known_witness :
  ∃ datasets,
    download_europa_chunk (serving [abc; xyz]) (0, 5000, {[abc_url]})
    = Ret datasets
    ∧ (xyz_record ∈ datasets ↔ key_of xyz_record ∉ ({[abc_url]} : gset value)).
Proof.
  apply (download_europa_chunk_filters_known
           (serving [abc; xyz]) 0 5000 {[abc_url]} xyz xyz_record).
  - vm_compute. apply list_elem_of_further, list_elem_of_here.
  - vm_compute. reflexivity.
  - vm_compute. reflexivity.
Defined.

(** ** Transactions *)

Lemma insert_all_snoc db batch_data r :
  insert_all db (batch_data ++ [r])
  = insert_do_nothing (insert_all db batch_data) r.
Proof. unfold insert_all. by rewrite foldl_app. Qed.

(** [executemany] leaves the committed table alone; it raises exactly when
    the faulty statement is one of its own, and otherwise the transaction
    sees every tuple inserted. *)
Lemma executemany_eq batch_data c :
  executemany batch_data c
  = match fault c with
    | StatementFault k =>
        if bool_decide (executed c ≤ k < executed c + length batch_data)%nat
        then (Raise DatabaseError,
              Connection (committed c)
                (insert_all (pending c) (take (k - executed c) batch_data))
                k (fault c))
        else (Ret (),
              Connection (committed c) (insert_all (pending c) batch_data)
                (executed c + length batch_data) (fault c))
    | _ => (Ret (),
            Connection (committed c) (insert_all (pending c) batch_data)
              (executed c + length batch_data) (fault c))
    end.
Proof.
  revert c. induction batch_data as [|r batch_data IH]; intros [co pe ex f].
  - simpl. rewrite Nat.add_0_r.
    destruct f as [| |k|]; try done.
    by rewrite bool_decide_eq_false_2 by lia.
  - cbn [executemany]. unfold mbind, tx_bind, execute. cbn [fault executed].
    destruct f as [| |k|]; cbn [committed pending].
    + rewrite IH. cbn. by rewrite Nat.add_succ_r.
    + rewrite IH. cbn. by rewrite Nat.add_succ_r.
    + case_bool_decide as Hk.
      * subst k. rewrite bool_decide_eq_true_2 by (cbn; lia).
        by rewrite Nat.sub_diag.
      * rewrite IH. cbn [fault executed committed pending length].
        case_bool_decide as H1.
        -- rewrite bool_decide_eq_true_2 by lia.
           replace (k - ex)%nat with (S (k - S ex)) by lia. done.
        -- rewrite bool_decide_eq_false_2 by lia.
           by rewrite Nat.add_succ_r.
    + rewrite IH. cbn. by rewrite Nat.add_succ_r.
Qed.

(** The transaction of the writer: it raises when the fault strikes, and
    the table is then what it was; otherwise every tuple has been inserted
    and the transaction is committed. *)
Lemma with_connection_save_transaction f db datasets :
  with_connection f db (save_transaction datasets)
  = if strikes f (length datasets) then (Raise DatabaseError, db)
    else (Ret (Z.of_nat (length datasets)),
          insert_all db (batch_tuple <$> datasets)).
Proof.
  unfold save_transaction, with_connection, get_connection.
  destruct f as [| |k|]; cbn [strikes]; [| done | |].
  - unfold mbind, tx_bind. rewrite executemany_eq. cbn.
    by rewrite ?length_fmap.
  - unfold mbind, tx_bind. rewrite executemany_eq.
    cbn [fault executed committed pending]. rewrite length_fmap.
    destruct (Nat.ltb_spec k (length datasets)).
    + by rewrite bool_decide_eq_true_2 by lia.
    + rewrite bool_decide_eq_false_2 by lia. cbn. by rewrite ?length_fmap.
  - unfold mbind, tx_bind. rewrite executemany_eq. done.
Qed.

Lemma raised_save_transaction f db datasets :
  raised (with_connection f db (save_transaction datasets)).1
  = strikes f (length datasets).
Proof.
  rewrite with_connection_save_transaction. by destruct (strikes _ _).
Qed.

(** The batch writer in closed form. *)
Lemma save_datasets_batch_eq f db datasets :
  save_datasets_batch f db datasets
  = if bool_decide (datasets = []) || strikes f (length datasets)
    then (Ret 0, db)
    else (Ret (Z.of_nat (length datasets)),
          insert_all db (batch_tuple <$> datasets)).
Proof.
  destruct datasets as [|d datasets]; [done|].
  rewrite bool_decide_eq_false_2 by done. rewrite orb_false_l.
  unfold save_datasets_batch.
  rewrite with_connection_save_transaction. by destruct (strikes _ _).
Qed.

(** ** The table under [ON CONFLICT (source_url) DO NOTHING] *)

Lemma keys_app db1 db2 : keys (db1 ++ db2) = keys db1 ++ keys db2.
Proof. apply fmap_app. Qed.

Lemma insert_do_nothing_prefix db r : db `prefix_of` insert_do_nothing db r.
Proof.
  unfold insert_do_nothing. case_bool_decide; [done|]. by apply prefix_app_r.
Qed.

Lemma insert_do_nothing_NoDup db r :
  NoDup (keys db) → NoDup (keys (insert_do_nothing db r)).
Proof.
  intros Hnd. unfold insert_do_nothing. case_bool_decide as Hin; [done|].
  rewrite keys_app. apply NoDup_app. split; [done|]. split.
  - intros k Hk [->|[]%not_elem_of_nil]%elem_of_cons. done.
  - apply NoDup_singleton.
Qed.

Lemma insert_do_nothing_key db r :
  source_url r ∈ keys (insert_do_nothing db r).
Proof.
  unfold insert_do_nothing. case_bool_decide as Hin; [done|].
  rewrite keys_app. apply elem_of_app. right. apply list_elem_of_here.
Qed.

Lemma insert_do_nothing_known db r :
  source_url r ∈ keys db → insert_do_nothing db r = db.
Proof. intros Hin. unfold insert_do_nothing. by rewrite bool_decide_eq_true_2. Qed.

Lemma keys_prefix db db' k : db `prefix_of` db' → k ∈ keys db → k ∈ keys db'.
Proof.
  intros [rest ->] Hk. rewrite keys_app. apply elem_of_app. by left.
Qed.

Lemma insert_all_prefix db batch_data : db `prefix_of` insert_all db batch_data.
Proof.
  revert db. induction batch_data as [|r batch_data IH]; intros db; [done|].
  cbn. etrans; [apply insert_do_nothing_prefix|apply IH].
Qed.

Lemma insert_all_NoDup db batch_data :
  NoDup (keys db) → NoDup (keys (insert_all db batch_data)).
Proof.
  revert db. induction batch_data as [|r batch_data IH]; intros db Hnd; [done|].
  cbn. by apply IH, insert_do_nothing_NoDup.
Qed.

Lemma insert_all_keys db batch_data r :
  r ∈ batch_data → source_url r ∈ keys (insert_all db batch_data).
Proof.
  revert db. induction batch_data as [|r' batch_data IH]; intros db.
  - by intros ?%not_elem_of_nil.
  - intros [->|Hin]%elem_of_cons; cbn.
    + eapply keys_prefix; [apply insert_all_prefix|].
      apply insert_do_nothing_key.
    + by apply IH.
Qed.

Lemma insert_all_known db batch_data :
  (∀ r, r ∈ batch_data → source_url r ∈ keys db) →
  insert_all db batch_data = db.
Proof.
  induction batch_data as [|r batch_data IH]; intros Hknown; [done|].
  cbn. rewrite insert_do_nothing_known by (apply Hknown, list_elem_of_here).
  apply IH. intros r' Hr'. by apply Hknown, list_elem_of_further.
Qed.

Lemma insert_all_length db batch_data :
  (length (insert_all db batch_data) ≤ length db + length batch_data)%nat.
Proof.
  revert db. induction batch_data as [|r batch_data IH]; intros db; cbn; [lia|].
  etrans; [apply IH|]. unfold insert_do_nothing.
  case_bool_decide; rewrite ?length_app; cbn; lia.
Qed.

Lemma rows_with_key_app k db1 db2 :
  rows_with_key k (db1 ++ db2) = (rows_with_key k db1 + rows_with_key k db2)%nat.
Proof. unfold rows_with_key. by rewrite filter_app, length_app. Qed.

Lemma rows_with_key_absent k db : k ∉ keys db → rows_with_key k db = 0%nat.
Proof.
  unfold rows_with_key, keys. induction db as [|r db IH]; intros Hk; [done|].
  rewrite fmap_cons, not_elem_of_cons in Hk. destruct Hk as [Hne Hk].
  rewrite filter_cons_False by done. by apply IH.
Qed.

(** Under distinct keys a key that is present has exactly one row. *)
Lemma rows_with_key_NoDup k db :
  NoDup (keys db) → k ∈ keys db → rows_with_key k db = 1%nat.
Proof.
  unfold keys. induction db as [|r db IH]; intros Hnd Hk.
  - by apply not_elem_of_nil in Hk.
  - rewrite fmap_cons in Hnd, Hk. apply NoDup_cons in Hnd as [Hr Hnd].
    change (r :: db) with ([r] ++ db). rewrite rows_with_key_app.
    apply elem_of_cons in Hk as [->|Hk].
    + rewrite (rows_with_key_absent (source_url r) db) by done.
      unfold rows_with_key. by rewrite filter_cons_True.
    + rewrite IH by done. unfold rows_with_key.
      rewrite filter_cons_False; [done|]. intros E. by rewrite E in Hr.
Qed.

(** ** The batch writer *)

(** What the writer returns when nothing fails: the length of the batch. *)
Lemma save_datasets_batch_returns_length db datasets :
  save_datasets_batch NoFault db datasets
  = (Ret (Z.of_nat (length datasets)),
     insert_all db (batch_tuple <$> datasets)).
Proof.
  rewrite save_datasets_batch_eq. cbn. rewrite orb_false_r.
  by destruct datasets.
Qed.

(** The rows inserted are at most as many as the number returned. *)
Lemma save_datasets_batch_inserts_at_most db datasets n db' :
  save_datasets_batch NoFault db datasets = (Ret n, db') →
  db `prefix_of` db' ∧ Z.of_nat (length db') - Z.of_nat (length db) ≤ n.
Proof.
  rewrite save_datasets_batch_returns_length. intros [= <- <-].
  split; [apply insert_all_prefix|].
  pose proof (insert_all_length db (batch_tuple <$> datasets)) as H.
  rewrite length_fmap in H. lia.
Qed.

(** C1, at a failing input: the table holds a row under the key of
    [abc_record]; saving the batch [[abc_record]] inserts no row (the table
    is the same afterwards), yet the number returned is 1.  Likewise a batch
    with the same record twice inserts one row and returns 2.  The empty
    batch returns 0 and leaves the table alone. *)
Theorem save_datasets_batch_counts_skipped :
  save_datasets_batch NoFault [batch_tuple abc_record] [abc_record]
  = (Ret 1, [batch_tuple abc_record])
  ∧ save_datasets_batch NoFault [] [abc_record; abc_record]
    = (Ret 2, [batch_tuple abc_record])
  ∧ ∀ f db, save_datasets_batch f db [] = (Ret 0, db).
Proof. split; [|split]; [vm_compute; reflexivity ..|done]. Qed.

(** C10: the batch writer never raises.  When its transaction raises
    (no connection, a failing statement of the batch, a failing commit) the
    table is what it was before the call, whatever part of the batch the
    transaction had inserted, and the number returned is 0, which is also
    what the call gives on the empty batch. *)
Theorem save_datasets_batch_total_atomic f db datasets :
  (∃ n db', save_datasets_batch f db datasets = (Ret n, db'))
  ∧ (raised (with_connection f db (save_transaction datasets)).1 = true →
     save_datasets_batch f db datasets = (Ret 0, db)
     ∧ save_datasets_batch f db datasets = save_datasets_batch f db []).
Proof.
  rewrite raised_save_transaction, save_datasets_batch_eq. split.
  - destruct (_ || _); eauto.
  - intros ->. by rewrite orb_true_r.
Qed.

(** In the sample the second statement of the batch fails after the first
    tuple has been inserted in the open transaction. *)
Lemma save_datasets_batch_total_atomic_witness :
  executemany (batch_tuple <$> [abc_record; xyz_record])
    (Connection [] [] 0 (StatementFault 1))
  = (Raise DatabaseError,
     Connection [] [batch_tuple abc_record] 1 (StatementFault 1))
  ∧ save_datasets_batch (StatementFault 1) [] [abc_record; xyz_record]
    = (Ret 0, []).
Proof.
  split; [vm_compute; reflexivity|].
  apply (save_datasets_batch_total_atomic (StatementFault 1) []
           [abc_record; xyz_record]).
  vm_compute. reflexivity.
Defined.

(** ** Queries *)

Lemma with_connection_query {A} (q : list row → A) f db :
  with_connection f db (query q)
  = (if strikes f 1 then Raise DatabaseError else Ret (q db), db).
Proof.
  unfold with_connection, get_connection, query, execute, commit.
  destruct f as [| |[|k]|]; done.
Qed.

Lemma with_connection_final_statistics f db :
  with_connection f db final_statistics
  = (if strikes f 2 then Raise DatabaseError
     else Ret (count_europa db, count_all db), db).
Proof.
  unfold with_connection, get_connection, final_statistics, query, execute,
    commit.
  destruct f as [| |[|[|k]]|]; done.
Qed.

(** A transaction raises exactly when its fault strikes. *)
Lemma raised_query {A} (q : list row → A) f db :
  raised (with_connection f db (query q)).1 = strikes f 1.
Proof. rewrite with_connection_query. by destruct (strikes f 1). Qed.

Lemma raised_final_statistics f db :
  raised (with_connection f db final_statistics).1 = strikes f 2.
Proof.
  rewrite with_connection_final_statistics. by destruct (strikes f 2).
Qed.

Lemma get_existing_europa_urls_eq f db :
  get_existing_europa_urls f db
  = (Ret (if strikes f 1 then ∅
          else list_to_set (select_europa_urls db)), db).
Proof.
  unfold get_existing_europa_urls, with_connection, get_connection, query,
    execute, commit.
  destruct f as [| |[|k]|]; done.
Qed.

Lemma select_europa_urls_keys db k :
  k ∈ select_europa_urls db → k ∈ keys db.
Proof.
  unfold select_europa_urls, keys. rewrite !list_elem_of_fmap.
  intros (r & -> & Hr). exists r. split; [done|].
  by apply list_elem_of_filter in Hr as [_ Hr].
Qed.

(** ** Reading the sizes *)

Lemma read_sizes_total lines : read_sizes lines = Ret (sizes lines).
Proof.
  unfold sizes, read_sizes.
  destruct lines as [|[|z|] [|[|w|] lines]]; done.
Qed.

(** ** One step of the drain loop *)

Lemma fresh_records_europa existing_urls data d :
  d ∈ fresh_records existing_urls data →
  ∃ dataset_id, d = europa_metadata dataset_id.
Proof. rewrite elem_of_fresh_records. naive_solver. Qed.

Lemma add_source_urls_eq datasets urls :
  (∀ d, d ∈ datasets → ∃ dataset_id, d = europa_metadata dataset_id) →
  add_source_urls datasets urls
  = (Ret (), list_to_set (key_of <$> datasets) ∪ urls).
Proof.
  revert urls. induction datasets as [|d datasets IH]; intros urls Hall.
  - cbn. f_equal. set_solver.
  - destruct (Hall d) as [dataset_id ->]; [apply list_elem_of_here|].
    cbn [add_source_urls]. unfold subscript.
    rewrite lookup_source_url_europa_metadata. cbn [mbind res_bind set_add].
    rewrite IH by (intros d' Hd'; by apply Hall, list_elem_of_further).
    f_equal. rewrite fmap_cons, key_of_europa_metadata. set_solver.
Qed.

Lemma merge_result_eq remote chunks st c :
  merge_result remote chunks st c
  = match chunks !! chunk_index c with
    | None => st
    | Some (chunk_start, size) =>
        if worker_died c then st
        else
          match fresh_records (snapshot st (staleness c))
                  (page remote chunk_start size) with
          | [] => st
          | datasets => merged st c datasets
          end
    end.
Proof.
  unfold merge_result.
  destruct (chunks !! chunk_index c) as [[chunk_start size]|]; [|done].
  destruct (worker_died c); [done|].
  rewrite download_europa_chunk_eq.
  destruct (fresh_records _ _) as [|d datasets] eqn:E; [done|].
  rewrite save_datasets_batch_eq.
  rewrite bool_decide_eq_false_2 by done. rewrite orb_false_l.
  rewrite add_source_urls_eq.
  2:{ intros d' Hd'. rewrite <- E in Hd'.
      by apply fresh_records_europa in Hd'. }
  unfold merged. by destruct (strikes _ _).
Qed.

(** ** [main] in closed form *)

Lemma with_table_id st : with_table st (table st) = st.
Proof. by destruct st. Qed.

Lemma main_from_eq current_count env db :
  main_from current_count env db
  = let existing_urls : gset value :=
      if strikes (urls_fault env) 1 then ∅
      else list_to_set (select_europa_urls db) in
    let chunks :=
      partition current_count (sizes (typed env)).1 chunk_size in
    match start_pool (pool_limit env) (submit_fault env)
            (sizes (typed env)).2 chunks with
    | Raise e => (Raise e, start_job db existing_urls)
    | Ret _ =>
      let st := foldl (merge_result (remote env) chunks)
                  (start_job db existing_urls) (completions env) in
      (if strikes (stats_fault env) 2 then Raise DatabaseError
       else Ret (count_europa (table st), count_all (table st)), st)
    end.
Proof.
  unfold main_from. rewrite get_existing_europa_urls_eq, read_sizes_total.
  destruct (sizes (typed env)) as [batch_size num_workers]. cbn [fst snd].
  destruct (start_pool _ _ _ _); [|done].
  rewrite with_connection_final_statistics. by rewrite with_table_id.
Qed.

Lemma partition_nonempty start_offset batch_size :
  partition start_offset batch_size chunk_size ≠ [] ↔
  chunk_size ≤ batch_size.
Proof.
  split.
  - intros Hne. destruct (Z_lt_le_dec batch_size chunk_size) as [Hlt|]; [|done].
    destruct Hne. unfold partition, make_chunks. rewrite seqZ_nil; [done|].
    assert (batch_size `div` chunk_size < 1); [|lia].
    apply Z.div_lt_upper_bound; [done|]. unfold chunk_size in *. lia.
  - intros Hle E. apply (f_equal length) in E.
    unfold partition, make_chunks in E.
    rewrite length_fmap, length_seqZ in E. cbn in E.
    assert (1 ≤ batch_size `div` chunk_size); [|lia].
    apply Z.div_le_lower_bound; [done|]. unfold chunk_size in *. lia.
Qed.

(** The pool cannot be started when the number of workers is not positive,
    when the platform refuses it, or when there is a chunk to submit and the
    worker processes cannot be started. *)
Lemma raised_start_pool limit fault num_workers chunks :
  raised (start_pool limit fault num_workers chunks) = true ↔
  num_workers ≤ 0 ∨ is_Some (limit num_workers)
  ∨ (chunks ≠ [] ∧ is_Some fault).
Proof.
  unfold start_pool, process_pool_executor.
  case_bool_decide as Hn; [cbn; naive_solver|].
  destruct (limit num_workers) as [e|]; [cbn; naive_solver|].
  cbn. destruct chunks as [|c chunks], fault as [e|]; cbn;
    split; try done; try (intros _; right; right; by eauto);
    intros [?|[[? [=]]|[? [? ?]]]]; done.
Qed.

Lemma clean_run_parts current_count env :
  clean_run current_count env = true →
  start_pool (pool_limit env) (submit_fault env) (sizes (typed env)).2
    (partition current_count (sizes (typed env)).1 chunk_size) = Ret ()
  ∧ forallb undisturbed (completions env) = true
  ∧ covers (length (partition current_count (sizes (typed env)).1
                      chunk_size)) (completions env) = true.
Proof.
  intros Hclean. apply andb_true_iff in Hclean as [Hclean Hcovers].
  apply andb_true_iff in Hclean as [Hpool Hundisturbed].
  split; [|done]. by destruct (start_pool _ _ _ _) as [[]|e].
Qed.

Lemma main_eq env db :
  main env db
  = if strikes (count_fault env) 1
    then (Raise DatabaseError, start_job db ∅)
    else main_from (count_europa db) env db.
Proof.
  unfold main. rewrite with_connection_query. by destruct (strikes _ _).
Qed.

(** C9, as stated, fails in both directions.  With [no_key_set] the key
    set cannot be loaded and [main] ends normally.  With [no_statistics] and
    with [too_many_workers] Initializing meets no fault and [main] raises:
    in the first the final statistics cannot be read, in the second the
    platform refuses a pool of 2147483647 workers. *)
Lemma key_set_failure_is_not_fatal :
  strikes (urls_fault no_key_set) 1 = true
  ∧ raised (main no_key_set []).1 = false
  ∧ strikes (count_fault no_statistics) 1 = false
  ∧ strikes (urls_fault no_statistics) 1 = false
  ∧ raised (main no_statistics []).1 = true
  ∧ strikes (count_fault too_many_workers) 1 = false
  ∧ strikes (urls_fault too_many_workers) 1 = false
  ∧ (main too_many_workers []).1 = Raise OverflowError.
Proof. repeat split; vm_compute; reflexivity. Qed.

(** C9, amended: [main] raises if and only if the count query of
    Initializing fails, or the pool cannot be started (a number of workers
    that is not positive, a number that the platform refuses, or worker
    processes that cannot be started when there is a chunk to submit), or
    the final statistics cannot be read.  A failure to load the key set is
    not fatal: the loader answers the empty set and the job goes on. *)
Theorem main_fatal_iff env db :
  (raised (main env db).1 = true ↔
     strikes (count_fault env) 1 = true
     ∨ (sizes (typed env)).2 ≤ 0
     ∨ is_Some (pool_limit env (sizes (typed env)).2)
     ∨ (chunk_size ≤ (sizes (typed env)).1 ∧ is_Some (submit_fault env))
     ∨ strikes (stats_fault env) 2 = true)
  ∧ (∀ f db', strikes f 1 = true →
       get_existing_europa_urls f db' = (Ret ∅, db')).
Proof.
  split.
  - rewrite main_eq. destruct (strikes (count_fault env) 1); [naive_solver|].
    rewrite main_from_eq. cbv zeta.
    pose proof (raised_start_pool (pool_limit env) (submit_fault env)
                  (sizes (typed env)).2
                  (partition (count_europa db) (sizes (typed env)).1
                     chunk_size)) as Hpool.
    rewrite partition_nonempty in Hpool.
    destruct (start_pool _ _ _ _) as [[]|e]; cbn [fst raised] in *.
    + destruct (strikes (stats_fault env) 2); [naive_solver|].
      split; [done|]. intros [?|H]; [done|].
      assert (false = true); [|done]. apply Hpool. naive_solver.
    + split; [|done]. intros _. right.
      destruct (proj1 Hpool eq_refl) as [?|[?|?]]; naive_solver.
  - intros f db' Hf. by rewrite get_existing_europa_urls_eq, Hf.
Qed.

(** ** Distinct keys in the table *)

Lemma merged_table_prefix st c datasets :
  table st `prefix_of` table (merged st c datasets).
Proof.
  unfold merged. cbn. destruct (strikes _ _); [done|apply insert_all_prefix].
Qed.

Lemma merge_result_table_prefix remote chunks st c :
  table st `prefix_of` table (merge_result remote chunks st c).
Proof.
  rewrite merge_result_eq.
  destruct (chunks !! chunk_index c) as [[chunk_start size]|]; [|done].
  destruct (worker_died c); [done|].
  destruct (fresh_records _ _); [done|apply merged_table_prefix].
Qed.

Lemma merged_keys_settled st c datasets :
  keys_settled st → keys_settled (merged st c datasets).
Proof.
  intros [Hnd Hin]. split.
  - unfold merged. cbn. destruct (strikes _ _); [done|].
    by apply insert_all_NoDup.
  - intros h d Hh Hok Hd.
    change (handed (merged st c datasets))
      with (handed st ++ [Handed datasets (write_fault c) (existing_urls st)])
      in Hh.
    apply elem_of_app in Hh as [Hh|Hh%list_elem_of_singleton].
    + eapply keys_prefix; [apply merged_table_prefix|]. by eapply Hin.
    + subst h. cbn in Hok, Hd. unfold merged. cbn. rewrite Hok.
      apply (insert_all_keys _ _ (batch_tuple d)).
      by apply list_elem_of_fmap_2.
Qed.

Lemma merge_result_keys_settled remote chunks st c :
  keys_settled st → keys_settled (merge_result remote chunks st c).
Proof.
  intros Hst. rewrite merge_result_eq.
  destruct (chunks !! chunk_index c) as [[chunk_start size]|]; [|done].
  destruct (worker_died c); [done|].
  destruct (fresh_records _ _); [done|by apply merged_keys_settled].
Qed.

Lemma drain_keys_settled remote chunks cs st :
  keys_settled st → keys_settled (foldl (merge_result remote chunks) st cs).
Proof.
  revert st. induction cs as [|c cs IH]; intros st Hst; [done|].
  cbn. by apply IH, merge_result_keys_settled.
Qed.

Lemma main_keys_settled env db :
  NoDup (keys db) → keys_settled (main env db).2.
Proof.
  intros Hnd.
  assert (∀ urls, keys_settled (start_job db urls)) as Hstart.
  { intros urls. split; [done|]. by intros h d ?%not_elem_of_nil. }
  rewrite main_eq. destruct (strikes (count_fault env) 1); [apply Hstart|].
  rewrite main_from_eq. cbv zeta.
  destruct (start_pool _ _ _ _); [|apply Hstart].
  cbn [snd]. apply drain_keys_settled, Hstart.
Qed.

(** C5: the table never holds two rows under one key.  Whatever the
    order in which the chunks complete, whatever copies of the key set the
    workers received and whatever faults occur, if the keys of the table
    are distinct before [main] they are distinct after it, and every record
    of a batch that the writer saved without a fault has exactly one row
    under its key, however many batches carried a record with that key. *)
Theorem store_keys_unique env db :
  NoDup (keys db) →
  let st := (main env db).2 in
  NoDup (keys (table st))
  ∧ ∀ h d, h ∈ handed st →
      strikes (batch_fault h) (length (batch h)) = false →
      d ∈ batch h → rows_with_key (key_of d) (table st) = 1%nat.
Proof.
  intros Hnd st. destruct (main_keys_settled env db Hnd) as [Hnd' Hin].
  split; [done|]. intros h d Hh Hok Hd.
  apply rows_with_key_NoDup; [done|]. by eapply Hin.
Qed.

Lemma store_keys_unique_witness :
  batch <$> handed (main racing []).2 = [[abc_record]; [abc_record]]
  ∧ NoDup (keys (table (main racing []).2))
  ∧ rows_with_key (key_of abc_record) (table (main racing []).2) = 1%nat.
Proof.
  destruct (store_keys_unique racing [] (NoDup_nil_2 (A:=value))) as [H1 H2].
  split; [vm_compute; reflexivity|]. split; [exact H1|].
  apply (H2 (Handed [abc_record] NoFault ∅) abc_record).
  - vm_compute. apply list_elem_of_here.
  - reflexivity.
  - apply list_elem_of_here.
Defined.

(** ** Partitioning *)

Lemma lookup_partition start_offset batch_size size i c :
  partition start_offset batch_size size !! i = Some c ↔
  c = (start_offset + Z.of_nat i * size, size)
  ∧ Z.of_nat i < batch_size `div` size.
Proof.
  unfold partition, make_chunks. rewrite list_lookup_fmap.
  destruct (seqZ 0 (batch_size `div` size) !! i) as [j|] eqn:E; cbn.
  - apply lookup_seqZ in E as [-> Hi]. rewrite Z.add_0_l. naive_solver.
  - split; [done|]. intros [_ Hi].
    by rewrite lookup_seqZ_lt in E.
Qed.

(** The chunks never overlap. *)
Lemma partition_disjoint start_offset batch_size size i j c c' x :
  0 < size →
  partition start_offset batch_size size !! i = Some c →
  partition start_offset batch_size size !! j = Some c' →
  in_chunk x c → in_chunk x c' → i = j.
Proof.
  intros Hsize [-> _]%lookup_partition [-> _]%lookup_partition.
  unfold in_chunk. cbn. intros Hi Hj. nia.
Qed.

(** The chunks cover the whole multiples of the chunk size, and no more. *)
Lemma partition_covers start_offset batch_size size x :
  0 < size →
  (∃ c, c ∈ partition start_offset batch_size size ∧ in_chunk x c) ↔
  start_offset ≤ x < start_offset + batch_size `div` size * size.
Proof.
  intros Hsize. split.
  - intros (c & [i [-> Hi]%lookup_partition]%list_elem_of_lookup & Hx).
    unfold in_chunk in Hx. cbn in Hx. nia.
  - intros Hx.
    set (q := (x - start_offset) `div` size).
    assert (0 ≤ q) by (apply Z.div_pos; lia).
    assert (q * size ≤ x - start_offset < q * size + size).
    { pose proof (Z.div_mod (x - start_offset) size ltac:(lia)).
      pose proof (Z.mod_pos_bound (x - start_offset) size Hsize).
      fold q in H0. lia. }
    exists (start_offset + q * size, size). split.
    + apply list_elem_of_lookup. exists (Z.to_nat q).
      apply lookup_partition. rewrite Z2Nat.id by done. split; [done|]. nia.
    + unfold in_chunk. cbn. lia.
Qed.

(** When the chunk size divides the volume, the chunks cover exactly the
    range asked for. *)
Lemma partition_exact start_offset batch_size size x :
  0 < size → (size | batch_size) →
  (∃ c, c ∈ partition start_offset batch_size size ∧ in_chunk x c) ↔
  start_offset ≤ x < start_offset + batch_size.
Proof.
  intros Hsize [k ->]. rewrite partition_covers by done.
  by rewrite Z.div_mul by lia.
Qed.

(** C2, at a failing input: 7000 datasets are asked for from offset 0;
    [main] makes the one chunk [(0, 5000)], so that the offsets from 5000 to
    6999 are in no chunk.  With a volume below the chunk size there is no
    chunk at all.  In general the last [batch_size mod chunk_size] offsets
    are left out. *)
Theorem partition_drops_remainder :
  partition 0 7000 chunk_size = [(0, 5000)]
  ∧ partition 0 4999 chunk_size = []
  ∧ partition 100 7 5 = [(100, 5)]
  ∧ ∀ start_offset batch_size x,
      start_offset + batch_size `div` chunk_size * chunk_size ≤ x →
      ∀ c, c ∈ partition start_offset batch_size chunk_size → ¬ in_chunk x c.
Proof.
  split; [|split; [|split]]; [reflexivity ..|].
  intros start_offset batch_size x Hx c Hc Hin.
  assert (0 < chunk_size) as Hsize by done.
  pose proof (proj1 (partition_covers start_offset batch_size chunk_size x
                       Hsize)) as H.
  destruct H as [_ H]; [by exists c|]. lia.
Qed.

(** ** The filter of the worker and the set of the orchestrator *)

Lemma snapshot_newest st : snapshot st 0 = existing_urls st.
Proof. done. Qed.

Lemma snapshot_cases st s :
  snapshot st s = existing_urls st ∨ snapshot st s ∈ earlier_urls st.
Proof.
  unfold snapshot.
  destruct ((existing_urls st :: earlier_urls st) !! _) as [x|] eqn:E;
    [|by left].
  apply list_elem_of_lookup_2, elem_of_cons in E as [->|E]; [by left|by right].
Qed.

(** C4, as stated, fails.  The pages of the two chunks of [racing] both
    hold [abc] and both workers filtered against the key set of the start of
    the job: both copies of the record are handed to the writer.  The key was
    not in the set of the orchestrator when the first copy was handed over,
    and was in it when the second one was. *)
Lemma both_copies_pass_the_filter :
  partition 0 10000 chunk_size = [(0, 5000); (5000, 5000)]
  ∧ page (remote racing) 0 5000 = [abc]
  ∧ page (remote racing) 5000 5000 = [abc]
  ∧ batch <$> handed (main racing []).2 = [[abc_record]; [abc_record]]
  ∧ urls_at_call <$> handed (main racing []).2 = [∅; {[abc_url]}].
Proof. repeat split; vm_compute; reflexivity. Qed.

(** C4, amended: a record is kept only if its key is absent from the
    copy of the key set that the worker of its chunk received.  The keys of
    the records kept are added to the set of the orchestrator when the
    result of the chunk is merged, after the batch has been handed to the
    writer.  A chunk whose worker receives the set as it is after that merge
    keeps no record under one of these keys. *)
Theorem keys_join_the_set_after_the_write
    remote chunks st c chunk_start size datasets :
  chunks !! chunk_index c = Some (chunk_start, size) →
  worker_died c = false →
  download_europa_chunk remote
    (chunk_start, size, snapshot st (staleness c)) = Ret datasets →
  datasets ≠ [] →
  let st' := merge_result remote chunks st c in
  (∀ d, d ∈ datasets → key_of d ∉ snapshot st (staleness c))
  ∧ handed st'
    = handed st ++ [Handed datasets (write_fault c) (existing_urls st)]
  ∧ existing_urls st' = list_to_set (key_of <$> datasets) ∪ existing_urls st
  ∧ ∀ start' size' datasets' d' d,
      download_europa_chunk remote (start', size', snapshot st' 0)
      = Ret datasets' →
      d' ∈ datasets' → d ∈ datasets → key_of d' ≠ key_of d.
Proof.
  intros Hchunk Hlive. rewrite download_europa_chunk_eq. intros [= E] Hne st'.
  assert (st' = merged st c datasets) as ->.
  { unfold st'. rewrite merge_result_eq, Hchunk, Hlive, E.
    by destruct datasets. }
  split; [|split; [done|split; [done|]]].
  - intros d. rewrite <- E, elem_of_fresh_records.
    intros (e & _ & _ & Hnew & ->). by rewrite key_of_europa_metadata.
  - intros start' size' datasets' d' d.
    rewrite download_europa_chunk_eq, snapshot_newest. intros [= <-].
    rewrite elem_of_fresh_records. intros (e & _ & _ & Hnew & ->) Hd Hk.
    rewrite key_of_europa_metadata in Hk. apply Hnew. rewrite Hk.
    apply elem_of_union_l, elem_of_list_to_set.
    by apply list_elem_of_fmap_2.
Qed.

Lemma keys_join_the_set_after_the_write_witness :
  let st := start_job [] ∅ in
  let c := Completion 0 0 false NoFault in
  let st' := merge_result (serving [abc]) [(0, 5000); (5000, 5000)] st c in
  (∀ d, d ∈ [abc_record] → key_of d ∉ snapshot st 0)
  ∧ handed st' = handed st ++ [Handed [abc_record] NoFault ∅]
  ∧ existing_urls st' = list_to_set (key_of <$> [abc_record]) ∪ ∅
  ∧ ∀ start' size' datasets' d' d,
      download_europa_chunk (serving [abc]) (start', size', snapshot st' 0)
      = Ret datasets' →
      d' ∈ datasets' → d ∈ [abc_record] → key_of d' ≠ key_of d.
Proof.
  apply (keys_join_the_set_after_the_write (serving [abc])
           [(0, 5000); (5000, 5000)] (start_job [] ∅)
           (Completion 0 0 false NoFault) 0 5000 [abc_record]).
  - reflexivity.
  - reflexivity.
  - vm_compute. reflexivity.
  - discriminate.
Defined.

(** ** Running the job again *)

Lemma page_stored_prefix remote chunk db db' :
  db `prefix_of` db' → page_stored remote chunk db →
  page_stored remote chunk db'.
Proof.
  intros Hpre Hst e He Hlen. eapply keys_prefix; [done|]. by apply Hst.
Qed.

Lemma snapshot_known st s u :
  known_in_table st → u ∈ snapshot st s → u ∈ keys (table st).
Proof.
  intros [Hnow Hearlier] Hu.
  destruct (snapshot_cases st s) as [E|Hin].
  - apply Hnow. by rewrite <- E.
  - by eapply Hearlier.
Qed.

Lemma start_job_known f db :
  known_in_table
    (start_job db (if strikes f 1 then ∅
                   else list_to_set (select_europa_urls db))).
Proof.
  split; cbn.
  - intros u. destruct (strikes f 1).
    + by intros ?%not_elem_of_empty.
    + intros Hu%elem_of_list_to_set. by apply select_europa_urls_keys.
  - by intros s u ?%not_elem_of_nil.
Qed.

(** An undisturbed merge keeps every known key in the table and leaves the
    whole page of its chunk stored. *)
Lemma merge_result_clean remote chunks st c chunk :
  known_in_table st → undisturbed c = true →
  chunks !! chunk_index c = Some chunk →
  known_in_table (merge_result remote chunks st c)
  ∧ page_stored remote chunk (table (merge_result remote chunks st c)).
Proof.
  intros Hknown [Hlive Hfault]%andb_true_iff Hchunk.
  apply negb_true_iff in Hlive.
  destruct chunk as [chunk_start size].
  rewrite merge_result_eq, Hchunk, Hlive.
  destruct (fresh_records _ _) as [|d0 datasets0] eqn:E.
  - split; [done|]. intros e He Hlen. cbn in He.
    destruct (decide (VStr (europa_source_url (dataset_id_of e))
                        ∈ snapshot st (staleness c))) as [Hin|Hnew].
    + by eapply snapshot_known.
    + assert (europa_metadata (dataset_id_of e)
                ∈ fresh_records (snapshot st (staleness c))
                    (page remote chunk_start size)) as Hd
        by (apply elem_of_fresh_records; by exists e).
      rewrite E in Hd. by apply not_elem_of_nil in Hd.
  - set (datasets := d0 :: datasets0) in *.
    assert (strikes (write_fault c) (length datasets) = false) as Hok
      by (by destruct (write_fault c)).
    assert (table (merged st c datasets)
            = insert_all (table st) (batch_tuple <$> datasets)) as Htable
      by (unfold merged; cbn [table]; by rewrite Hok).
    assert (∀ d, d ∈ datasets →
              key_of d ∈ keys (table (merged st c datasets))) as Hnewkeys.
    { intros d Hd. rewrite Htable.
      apply (insert_all_keys _ _ (batch_tuple d)).
      by apply list_elem_of_fmap_2. }
    assert (∀ u, u ∈ keys (table st) →
              u ∈ keys (table (merged st c datasets))) as Hold.
    { intros u. apply keys_prefix, merged_table_prefix. }
    destruct Hknown as [Hnow Hearlier]. split; [split|].
    + intros u. change (existing_urls (merged st c datasets))
        with (list_to_set (key_of <$> datasets) ∪ existing_urls st).
      intros [Hu|Hu]%elem_of_union.
      * apply elem_of_list_to_set, list_elem_of_fmap in Hu as (d & -> & Hd).
        by apply Hnewkeys.
      * by apply Hold, Hnow.
    + intros s u. change (earlier_urls (merged st c datasets))
        with (existing_urls st :: earlier_urls st).
      intros [->|Hs]%elem_of_cons Hu; apply Hold.
      * by apply Hnow.
      * by eapply Hearlier.
    + intros e He Hlen. cbn in He.
      destruct (decide (VStr (europa_source_url (dataset_id_of e))
                          ∈ snapshot st (staleness c))) as [Hin|Hnew].
      * apply Hold. eapply snapshot_known; [|done]. by split.
      * rewrite <- key_of_europa_metadata. apply Hnewkeys.
        rewrite <- E. apply elem_of_fresh_records. by exists e.
Qed.

Lemma merge_result_known remote chunks st c :
  known_in_table st → undisturbed c = true →
  known_in_table (merge_result remote chunks st c).
Proof.
  intros Hknown Hc.
  destruct (chunks !! chunk_index c) as [chunk|] eqn:Hchunk.
  - by apply (merge_result_clean remote chunks st c chunk).
  - unfold merge_result. by rewrite Hchunk.
Qed.

Lemma drain_table_prefix remote chunks cs st :
  table st `prefix_of` table (foldl (merge_result remote chunks) st cs).
Proof.
  revert st. induction cs as [|c cs IH]; intros st; [done|].
  cbn. etrans; [apply merge_result_table_prefix|apply IH].
Qed.

(** After a drain loop of undisturbed results, the page of every chunk that
    completed is stored. *)
Lemma drain_clean remote chunks cs st :
  known_in_table st → forallb undisturbed cs = true →
  known_in_table (foldl (merge_result remote chunks) st cs)
  ∧ ∀ c chunk, c ∈ cs → chunks !! chunk_index c = Some chunk →
      page_stored remote chunk
        (table (foldl (merge_result remote chunks) st cs)).
Proof.
  revert st. induction cs as [|c cs IH]; intros st Hknown Hcs.
  - split; [done|]. by intros c chunk ?%not_elem_of_nil.
  - cbn in Hcs. apply andb_true_iff in Hcs as [Hc Hcs]. cbn [foldl].
    destruct (IH (merge_result remote chunks st c)) as [Hk Hstored];
      [by apply merge_result_known|done|].
    split; [done|].
    intros c' chunk [->|Hin]%elem_of_cons Hchunk.
    + eapply page_stored_prefix; [apply drain_table_prefix|].
      by apply (merge_result_clean remote chunks st c chunk).
    + by eapply Hstored.
Qed.

Lemma covers_lookup (chunks : list (Z * Z)) cs i chunk :
  covers (length chunks) cs = true → chunks !! i = Some chunk →
  ∃ c, c ∈ cs ∧ chunk_index c = i.
Proof.
  unfold covers. rewrite forallb_forall. intros Hall Hi.
  apply lookup_lt_Some in Hi.
  specialize (Hall i). rewrite existsb_exists in Hall.
  destruct Hall as (c & Hc & E).
  - apply in_seq. lia.
  - exists c. split; [by apply list_elem_of_In|by apply Nat.eqb_eq].
Qed.

(** When the pages of all the chunks are stored, a merge changes nothing in
    the table, whatever the worker received and whatever goes wrong. *)
Lemma merge_result_stored remote chunks st c :
  (∀ i chunk, chunks !! i = Some chunk →
     page_stored remote chunk (table st)) →
  table (merge_result remote chunks st c) = table st.
Proof.
  intros Hstored. rewrite merge_result_eq.
  destruct (chunks !! chunk_index c) as [[chunk_start size]|] eqn:Hchunk;
    [|done].
  destruct (worker_died c); [done|].
  destruct (fresh_records _ _) as [|d0 datasets0] eqn:E; [done|].
  unfold merged. cbn [table]. destruct (strikes _ _); [done|].
  apply insert_all_known. intros r (d & -> & Hd)%list_elem_of_fmap.
  rewrite <- E in Hd.
  apply elem_of_fresh_records in Hd as (e & He & Hlen & _ & ->).
  change (source_url (batch_tuple (europa_metadata (dataset_id_of e))))
    with (VStr (europa_source_url (dataset_id_of e))).
  by apply (Hstored _ _ Hchunk).
Qed.

Lemma drain_stored remote chunks cs st :
  (∀ i chunk, chunks !! i = Some chunk →
     page_stored remote chunk (table st)) →
  table (foldl (merge_result remote chunks) st cs) = table st.
Proof.
  revert st. induction cs as [|c cs IH]; intros st Hstored; [done|].
  cbn [foldl].
  assert (table (merge_result remote chunks st c) = table st) as E
    by by apply merge_result_stored.
  rewrite IH; [done|]. by rewrite E.
Qed.

(** C6, as stated, fails.  The first run [lost_write] fetches [abc] and
    loses its batch to a failing commit: it leaves the table empty, and the
    second run [retried] over the same offsets and pages inserts a row.
    Besides, [main] itself does not run twice over the same offsets: it
    starts from the count of the rows of the platform, so that the second
    run of [resuming] asks for the page at offset 1 and inserts the row of
    [xyz]. *)
Lemma second_run_after_lost_write_inserts :
  table (main_from 0 lost_write []).2 = []
  ∧ table (main_from 0 retried (table (main_from 0 lost_write []).2)).2
    = [batch_tuple abc_record]
  ∧ table (main resuming []).2 = [batch_tuple abc_record]
  ∧ count_europa (table (main resuming []).2) = 1
  ∧ table (main resuming (table (main resuming []).2)).2
    = [batch_tuple abc_record; batch_tuple xyz_record].
Proof. repeat split; vm_compute; reflexivity. Qed.

(** C6, amended: a first run of the job in which the pool is started,
    every chunk completes, no worker dies and no write fails leaves a table
    to which a second run from the same start offset, for the same volume
    and over the same pages adds no row.  The second run loads its key set
    anew from that table (or fails to: then it starts from the empty set),
    and may meet any order of completion and any fault. *)
Theorem second_run_inserts_nothing current_count env1 env2 db0 :
  clean_run current_count env1 = true →
  remote env2 = remote env1 →
  (sizes (typed env2)).1 = (sizes (typed env1)).1 →
  let db1 := table (main_from current_count env1 db0).2 in
  table (main_from current_count env2 db1).2 = db1.
Proof.
  intros Hclean Hremote Hsize db1.
  destruct (clean_run_parts current_count env1 Hclean)
    as (Hpool & Hundisturbed & Hcovers).
  set (chunks := partition current_count (sizes (typed env1)).1 chunk_size)
    in *.
  assert (∀ i chunk, chunks !! i = Some chunk →
            page_stored (remote env1) chunk db1) as Hstored.
  { intros i chunk Hchunk. unfold db1. rewrite main_from_eq. cbv zeta.
    fold chunks. rewrite Hpool. cbn [snd].
    destruct (covers_lookup chunks _ i chunk Hcovers Hchunk)
      as (c & Hc & <-).
    eapply (drain_clean (remote env1) chunks); [|done|done|done].
    apply start_job_known. }
  rewrite main_from_eq. cbv zeta. rewrite Hremote, Hsize. fold chunks.
  destruct (start_pool (pool_limit env2) _ _ _); [|done]. cbn [snd].
  by rewrite drain_stored.
Qed.

Lemma second_run_inserts_nothing_witness :
  raw_id <$> table (main_from 0 first_run []).2
  = [VStr (py "abc"); VStr (py "xyz")]
  ∧ length (handed (main_from 0 second_run
                      (table (main_from 0 first_run []).2)).2) = 2%nat
  ∧ table (main_from 0 second_run (table (main_from 0 first_run []).2)).2
    = table (main_from 0 first_run []).2.
Proof.
  split; [vm_compute; reflexivity|]. split; [vm_compute; reflexivity|].
  apply (second_run_inserts_nothing 0 first_run second_run []).
  - vm_compute. reflexivity.
  - reflexivity.
  - reflexivity.
Defined.

(** * Further properties of the code *)

(** ** Trimming *)

Lemma lstrip_app_space ws s : all_space ws = true → lstrip (ws ++ s) = lstrip s.
Proof.
  induction ws as [|c ws IH]; [done|]. cbn.
  intros [Hc Hws]%andb_true_iff. rewrite Hc. by apply IH.
Qed.

Lemma lstrip_all_space ws : all_space ws = true → lstrip ws = [].
Proof.
  intros H. rewrite <- (app_nil_r ws). by rewrite lstrip_app_space.
Qed.

Lemma lstrip_app s t :
  lstrip (s ++ t) = if bool_decide (lstrip s = []) then lstrip t
                    else lstrip s ++ t.
Proof.
  induction s as [|c s IH]; [done|]. cbn.
  destruct (is_space c); [done|]. done.
Qed.

(** What [lstrip] leaves is empty or starts with a character that is not
    whitespace. *)
Lemma lstrip_head s :
  lstrip s = [] ∨ ∃ c t, lstrip s = c :: t ∧ is_space c = false.
Proof.
  induction s as [|c s IH]; [by left|]. cbn.
  destruct (is_space c) eqn:E; [done|]. right. by exists c, s.
Qed.

Lemma lstrip_fixed c t : is_space c = false → lstrip (c :: t) = c :: t.
Proof. intros E. cbn. by rewrite E. Qed.

Lemma lstrip_idemp s : lstrip (lstrip s) = lstrip s.
Proof.
  destruct (lstrip_head s) as [->|(c & t & -> & E)]; [done|].
  by apply lstrip_fixed.
Qed.

(** [lstrip] removes a prefix of whitespace. *)
Lemma lstrip_suffix s : ∃ ws, all_space ws = true ∧ s = ws ++ lstrip s.
Proof.
  induction s as [|c s (ws & Hws & E)]; [by exists []|]. cbn.
  destruct (is_space c) eqn:Hc.
  - exists (c :: ws). unfold all_space in *. cbn. rewrite Hc, Hws.
    split; [done|]. by rewrite <- E.
  - by exists [].
Qed.

Lemma all_space_reverse ws : all_space (reverse ws) = all_space ws.
Proof.
  unfold all_space. induction ws as [|c ws IH]; [done|].
  rewrite reverse_cons, forallb_app, IH. cbn.
  rewrite andb_true_r. apply andb_comm.
Qed.

Lemma rstrip_app_space s ws : all_space ws = true → rstrip (s ++ ws) = rstrip s.
Proof.
  intros H. unfold rstrip. rewrite reverse_app.
  by rewrite lstrip_app_space by by rewrite all_space_reverse.
Qed.

Lemma rstrip_prefix s : ∃ ws, all_space ws = true ∧ s = rstrip s ++ ws.
Proof.
  unfold rstrip. destruct (lstrip_suffix (reverse s)) as (ws & Hws & E).
  exists (reverse ws). split; [by rewrite all_space_reverse|].
  apply (f_equal reverse) in E. by rewrite reverse_involutive, reverse_app in E.
Qed.

Lemma rstrip_idemp s : rstrip (rstrip s) = rstrip s.
Proof. unfold rstrip. by rewrite reverse_involutive, lstrip_idemp. Qed.

(** Trimming on the right keeps a string trimmed on the left. *)
Lemma lstrip_rstrip s : lstrip s = s → lstrip (rstrip s) = rstrip s.
Proof.
  intros Hs. destruct (rstrip_prefix s) as (ws & Hws & E).
  destruct (rstrip s) as [|c t] eqn:Er; [done|].
  destruct (lstrip_head s) as [H0|(c' & t' & Hl & Hc)].
  - rewrite Hs in H0. rewrite H0 in E. discriminate.
  - rewrite Hs in Hl. rewrite Hl in E. injection E as -> _.
    by apply lstrip_fixed.
Qed.

Lemma strip_idemp s : strip (strip s) = strip s.
Proof.
  unfold strip. rewrite (lstrip_rstrip (lstrip s)) by apply lstrip_idemp.
  apply rstrip_idemp.
Qed.

Lemma strip_spaces ws1 s ws2 :
  all_space ws1 = true → all_space ws2 = true →
  strip (ws1 ++ s ++ ws2) = strip s.
Proof.
  intros H1 H2. unfold strip. rewrite lstrip_app_space by done.
  rewrite lstrip_app. case_bool_decide as E.
  - rewrite E. by rewrite lstrip_all_space.
  - by apply rstrip_app_space.
Qed.

(** ** Further properties of the normaliser *)

(** X1: white space around an identifier is of no effect: an entry and
    the same entry with whitespace before and after it give the same answer
    of the normaliser. *)
Theorem extract_ignores_surrounding_space ws1 s ws2 :
  all_space ws1 = true → all_space ws2 = true →
  extract_europa_metadata_from_string (RawStr (ws1 ++ s ++ ws2))
  = extract_europa_metadata_from_string (RawStr s).
Proof.
  intros H1 H2. rewrite !extract_europa_metadata_from_string_eq.
  unfold dataset_id_of. cbn [py_str]. by rewrite strip_spaces.
Qed.

Lemma extract_ignores_surrounding_space_witness :
  extract_europa_metadata_from_string
    (RawStr ([32; 9]%N ++ py "abc" ++ [13; 10; 160]%N))
  = extract_europa_metadata_from_string (RawStr (py "abc")).
Proof.
  apply (extract_ignores_surrounding_space [32; 9]%N (py "abc")
           [13; 10; 160]%N); reflexivity.
Defined.

(** An accepted answer of the normaliser is the record of the trimmed
    identifier, which has at least 3 characters. *)
Lemma extract_accepted e metadata :
  extract_europa_metadata_from_string e = Ret metadata →
  accepted metadata = true →
  metadata = europa_metadata (dataset_id_of e)
  ∧ (3 ≤ length (dataset_id_of e))%nat.
Proof.
  rewrite extract_europa_metadata_from_string_eq. intros [= <-] Hacc.
  destruct (Nat.ltb_spec (length (dataset_id_of e)) 3);
    [by rewrite accepted_empty in Hacc|done].
Qed.

(** X2: the identifier kept in an accepted record is trimmed, has at
    least 3 characters, determines the key by the URL template, and gives
    the same record when it is normalised again. *)
Theorem accepted_record_round_trip e metadata :
  extract_europa_metadata_from_string e = Ret metadata →
  accepted metadata = true →
  ∃ dataset_id,
    metadata !! "raw_id"%string = Some (VStr dataset_id)
    ∧ (3 ≤ length dataset_id)%nat
    ∧ strip dataset_id = dataset_id
    ∧ key_of metadata = VStr (url_prefix ++ dataset_id)
    ∧ extract_europa_metadata_from_string (RawStr dataset_id) = Ret metadata.
Proof.
  intros He Hacc. destruct (extract_accepted e metadata He Hacc) as [-> Hlen].
  exists (dataset_id_of e).
  assert (strip (dataset_id_of e) = dataset_id_of e) as Hstrip
    by apply strip_idemp.
  split; [reflexivity|]. split; [done|]. split; [done|].
  split; [reflexivity|].
  rewrite extract_europa_metadata_from_string_eq.
  unfold dataset_id_of at 1 3. cbn [py_str]. fold (dataset_id_of e).
  rewrite Hstrip.
  by destruct (Nat.ltb_spec (length (dataset_id_of e)) 3); [lia|].
Qed.

Lemma accepted_record_round_trip_witness :
  ∃ dataset_id,
    xyz_record !! "raw_id"%string = Some (VStr dataset_id)
    ∧ (3 ≤ length dataset_id)%nat
    ∧ strip dataset_id = dataset_id
    ∧ key_of xyz_record = VStr (url_prefix ++ dataset_id)
    ∧ extract_europa_metadata_from_string (RawStr dataset_id)
      = Ret xyz_record.
Proof.
  apply (accepted_record_round_trip xyz xyz_record);
    vm_compute; reflexivity.
Defined.

(** X3: two accepted records have the same deduplication key exactly
    when they are the same record: the key never conflates two records. *)
Theorem key_identifies_record e1 e2 m1 m2 :
  extract_europa_metadata_from_string e1 = Ret m1 →
  extract_europa_metadata_from_string e2 = Ret m2 →
  accepted m1 = true → accepted m2 = true →
  key_of m1 = key_of m2 ↔ m1 = m2.
Proof.
  intros H1 H2 A1 A2.
  destruct (extract_accepted e1 m1 H1 A1) as [-> _].
  destruct (extract_accepted e2 m2 H2 A2) as [-> _].
  split; [|by intros ->].
  rewrite !key_of_europa_metadata. intros E.
  assert (europa_source_url (dataset_id_of e1)
          = europa_source_url (dataset_id_of e2)) as E' by congruence.
  apply europa_source_url_inj in E'. by rewrite E'.
Qed.

Lemma key_identifies_record_witness :
  key_of abc_record = key_of abc_record ↔ abc_record = abc_record.
Proof.
  apply (key_identifies_record abc (RawStr (py "  abc")) abc_record
           abc_record); vm_compute; reflexivity.
Defined.

(** ** The JSON of [concepts] *)

Lemma hex_digit_printable d : (d < 16)%N → printable (hex_digit d) = true.
Proof.
  intros Hd. unfold printable, hex_digit.
  destruct (N.ltb_spec d 10); apply andb_true_iff;
    split; apply N.leb_le; lia.
Qed.

Lemma u_escape_printable n : forallb printable (u_escape n) = true.
Proof.
  unfold u_escape. cbn [forallb].
  rewrite !hex_digit_printable by (apply N.mod_lt; lia). reflexivity.
Qed.

Lemma escape_char_printable c : forallb printable (escape_char c) = true.
Proof.
  unfold escape_char.
  repeat (destruct (_ =? _)%N; [reflexivity|]).
  destruct (_ && _) eqn:E; [cbn [forallb]; unfold printable; by rewrite E|].
  destruct (_ <? _)%N; [apply u_escape_printable|].
  rewrite forallb_app, !u_escape_printable. reflexivity.
Qed.

Lemma json_string_printable s : forallb printable (json_string s) = true.
Proof.
  unfold json_string. rewrite !forallb_app. cbn [forallb].
  rewrite andb_true_r. cbn [andb].
  change (printable 34) with true. cbn [andb].
  induction s as [|c s IH]; [done|].
  cbn. rewrite forallb_app, escape_char_printable. exact IH.
Qed.

(** X4: whatever the identifier, the text stored under [concepts] is
    printable ASCII: [json.dumps] escapes every other character. *)
Theorem concepts_printable_ascii dataset_id :
  ∃ text,
    europa_metadata dataset_id !! "concepts"%string = Some (VStr text)
    ∧ forallb printable text = true.
Proof.
  exists (concepts_json dataset_id). split; [reflexivity|].
  unfold concepts_json. rewrite !forallb_app, !json_string_printable.
  reflexivity.
Qed.

(** ** Further properties of the chunk fetcher *)

Lemma key_of_fresh_records existing_urls data :
  key_of <$> fresh_records existing_urls data
  = filter (λ u, u ∉ existing_urls) (page_keys data).
Proof.
  unfold fresh_records, page_keys.
  induction data as [|e data IH]; [done|].
  cbn [omap list_omap]. unfold fresh_record at 1.
  destruct (Nat.ltb_spec (length (dataset_id_of e)) 3) as [Hshort|Hlong].
  - rewrite filter_cons_False by lia. exact IH.
  - rewrite filter_cons_True by done. rewrite fmap_cons.
    fold (entry_key e). case_bool_decide as Hin.
    + rewrite filter_cons_False by (intros H; by apply H). exact IH.
    + rewrite filter_cons_True by done. rewrite fmap_cons.
      rewrite key_of_europa_metadata. by rewrite <- IH.
Qed.

(** X5: the keys of the records that the fetcher returns are the keys
    of the accepted entries of the page, in page order, without those of the
    set it was given; an identifier that is twice on the page is returned
    twice. *)
Theorem fetched_keys_in_page_order remote start_offset size existing_urls :
  ∃ datasets,
    download_europa_chunk remote (start_offset, size, existing_urls)
    = Ret datasets
    ∧ key_of <$> datasets
      = filter (λ u, u ∉ existing_urls)
          (page_keys (page remote start_offset size)).
Proof.
  eexists. split; [apply download_europa_chunk_eq|].
  apply key_of_fresh_records.
Qed.

(** ** Further properties of the batch writer and of the key-set loader *)

Lemma insert_do_nothing_added db r :
  ∃ added, insert_do_nothing db r = db ++ added ∧ ∀ r', r' ∈ added → r' = r.
Proof.
  unfold insert_do_nothing. case_bool_decide.
  - exists []. rewrite app_nil_r. split; [done|]. by intros r' ?%not_elem_of_nil.
  - exists [r]. split; [done|]. by intros r' ->%list_elem_of_singleton.
Qed.

(** Inserting a batch appends some of its tuples. *)
Lemma insert_all_added db batch_data :
  ∃ added, insert_all db batch_data = db ++ added
           ∧ ∀ r, r ∈ added → r ∈ batch_data.
Proof.
  revert db. induction batch_data as [|r batch_data IH]; intros db.
  - exists []. rewrite app_nil_r. split; [done|]. by intros r ?%not_elem_of_nil.
  - change (insert_all db (r :: batch_data))
      with (insert_all (insert_do_nothing db r) batch_data).
    destruct (insert_do_nothing_added db r) as (a1 & -> & H1).
    destruct (IH (db ++ a1)) as (a2 & -> & H2).
    exists (a1 ++ a2). rewrite app_assoc. split; [done|].
    intros r' [Hr|Hr]%elem_of_app.
    + rewrite (H1 r' Hr). apply list_elem_of_here.
    + by apply list_elem_of_further, H2.
Qed.

Lemma insert_all_keys_iff db batch_data k :
  k ∈ keys (insert_all db batch_data) ↔
  k ∈ keys db ∨ k ∈ source_url <$> batch_data.
Proof.
  split.
  - destruct (insert_all_added db batch_data) as (added & -> & Hadded).
    rewrite keys_app. intros [Hk|Hk]%elem_of_app; [by left|right].
    apply list_elem_of_fmap in Hk as (r & -> & Hr).
    by apply list_elem_of_fmap_2, Hadded.
  - intros [Hk|Hk].
    + eapply keys_prefix; [apply insert_all_prefix|done].
    + apply list_elem_of_fmap in Hk as (r & -> & Hr).
      by apply insert_all_keys.
Qed.

(** X6: saving a batch a second time changes nothing in the table,
    whether or not the second call meets a fault. *)
Theorem save_datasets_batch_idempotent f db datasets :
  (save_datasets_batch f (save_datasets_batch NoFault db datasets).2
     datasets).2
  = (save_datasets_batch NoFault db datasets).2.
Proof.
  rewrite save_datasets_batch_returns_length. cbn [snd].
  rewrite save_datasets_batch_eq. destruct (_ || _); [done|]. cbn [snd].
  apply insert_all_known. intros r Hr. by apply insert_all_keys.
Qed.

(** X7: a save that meets no fault keeps every row that was there, in
    place, and the keys of the table afterwards are those it had and those
    of the batch. *)
Theorem saved_keys db datasets :
  db `prefix_of` (save_datasets_batch NoFault db datasets).2
  ∧ ∀ k, k ∈ keys (save_datasets_batch NoFault db datasets).2 ↔
         k ∈ keys db ∨ k ∈ key_of <$> datasets.
Proof.
  rewrite save_datasets_batch_returns_length. cbn [snd].
  split; [apply insert_all_prefix|].
  intros k. rewrite insert_all_keys_iff.
  by rewrite <- list_fmap_compose.
Qed.

Lemma elem_of_loaded_urls db u :
  u ∈ (list_to_set (select_europa_urls db) : gset value) ↔
  ∃ r, r ∈ db ∧ source_url r = u
       ∧ source_platform r = VStr (py "data.europa.eu").
Proof.
  rewrite elem_of_list_to_set. unfold select_europa_urls.
  rewrite list_elem_of_fmap. split.
  - intros (r & -> & [Hr Hin]%list_elem_of_filter).
    exists r. split; [done|]. split; [done|].
    by apply bool_decide_eq_true in Hr.
  - intros (r & Hin & <- & Hp). exists r. split; [done|].
    apply list_elem_of_filter. split; [|done].
    by apply bool_decide_eq_true.
Qed.

(** X8: the key-set loader never raises and leaves the table alone.  Its
    answer holds exactly the keys of the rows of the platform
    [data.europa.eu] when its transaction meets no fault, and is empty when
    it does. *)
Theorem get_existing_europa_urls_spec f db :
  ∃ urls : gset value,
    get_existing_europa_urls f db = (Ret urls, db)
    ∧ ∀ u, u ∈ urls ↔
           strikes f 1 = false
           ∧ ∃ r, r ∈ db ∧ source_url r = u
                  ∧ source_platform r = VStr (py "data.europa.eu").
Proof.
  eexists. split; [apply get_existing_europa_urls_eq|].
  intros u. destruct (strikes f 1).
  - split; [by intros ?%not_elem_of_empty|by intros [? _]].
  - rewrite elem_of_loaded_urls. naive_solver.
Qed.

(** X9: what the writer saves, the loader finds: after a batch of
    normalised records has been saved without a fault, the key of each of
    its records that was new to the table is in the key set loaded from the
    table. *)
Theorem saved_keys_are_loaded db datasets dataset_id :
  (∀ d, d ∈ datasets → ∃ i, d = europa_metadata i) →
  europa_metadata dataset_id ∈ datasets →
  VStr (europa_source_url dataset_id) ∉ keys db →
  ∃ urls : gset value,
    (get_existing_europa_urls NoFault
       (save_datasets_batch NoFault db datasets).2).1 = Ret urls
    ∧ VStr (europa_source_url dataset_id) ∈ urls.
Proof.
  intros Hall Hin Hnew.
  rewrite save_datasets_batch_returns_length. cbn [snd].
  rewrite get_existing_europa_urls_eq. cbn [strikes fst].
  eexists. split; [reflexivity|]. apply elem_of_loaded_urls.
  assert (VStr (europa_source_url dataset_id)
            ∈ keys (insert_all db (batch_tuple <$> datasets))) as Hk.
  { apply (insert_all_keys _ _ (batch_tuple (europa_metadata dataset_id))).
    by apply list_elem_of_fmap_2. }
  destruct (insert_all_added db (batch_tuple <$> datasets))
    as (added & Eadd & Hadded).
  rewrite Eadd in Hk |- *. rewrite keys_app in Hk.
  apply elem_of_app in Hk as [Hk|Hk]; [done|].
  apply list_elem_of_fmap in Hk as (r & Hkey & Hr).
  exists r. split; [by apply elem_of_app; right|]. split; [done|].
  apply Hadded, list_elem_of_fmap in Hr as (d & -> & Hd).
  by destruct (Hall d Hd) as [i ->].
Qed.

Lemma saved_keys_are_loaded_witness :
  ∃ urls : gset value,
    (get_existing_europa_urls NoFault
       (save_datasets_batch NoFault [batch_tuple abc_record]
          [abc_record; xyz_record]).2).1 = Ret urls
    ∧ VStr (europa_source_url (py "xyz")) ∈ urls.
Proof.
  apply (saved_keys_are_loaded [batch_tuple abc_record]
           [abc_record; xyz_record] (py "xyz")).
  - intros d [->|[->|[]%not_elem_of_nil]%elem_of_cons]%elem_of_cons;
      [by exists (py "abc")|by exists (py "xyz")].
  - apply list_elem_of_further, list_elem_of_here.
  - vm_compute. intros [E|[]%not_elem_of_nil]%elem_of_cons. discriminate E.
Defined.

(** ** Invariants of [main] *)

Lemma merge_result_invariant (P : job → Prop) remote chunks st c :
  P st →
  (∀ chunk_start size datasets,
     chunks !! chunk_index c = Some (chunk_start, size) →
     datasets = fresh_records (snapshot st (staleness c))
                  (page remote chunk_start size) →
     datasets ≠ [] → P (merged st c datasets)) →
  P (merge_result remote chunks st c).
Proof.
  intros Hst Hstep. rewrite merge_result_eq.
  destruct (chunks !! chunk_index c) as [[chunk_start size]|] eqn:Hc; [|done].
  destruct (worker_died c); [done|].
  destruct (fresh_records _ _) as [|d datasets] eqn:E; [done|].
  by eapply Hstep.
Qed.

Lemma drain_invariant (P : job → Prop) remote chunks cs st :
  P st →
  (∀ st c, P st → P (merge_result remote chunks st c)) →
  P (foldl (merge_result remote chunks) st cs).
Proof.
  intros Hst Hstep. revert st Hst.
  induction cs as [|c cs IH]; intros st Hst; [done|].
  cbn. by apply IH, Hstep.
Qed.

Lemma main_from_invariant (P : job → Prop) current_count env db :
  (∀ urls, P (start_job db urls)) →
  (∀ st c, P st →
     P (merge_result (remote env)
          (partition current_count (sizes (typed env)).1 chunk_size) st c)) →
  P (main_from current_count env db).2.
Proof.
  intros Hstart Hstep. rewrite main_from_eq. cbv zeta.
  destruct (start_pool _ _ _ _); [|apply Hstart]. cbn [snd].
  by apply drain_invariant.
Qed.

Lemma main_invariant (P : job → Prop) env db :
  (∀ urls, P (start_job db urls)) →
  (∀ chunks st c, P st → P (merge_result (remote env) chunks st c)) →
  P (main env db).2.
Proof.
  intros Hstart Hstep. rewrite main_eq.
  destruct (strikes _ _); [apply Hstart|].
  apply main_from_invariant; [done|]. intros st c. apply Hstep.
Qed.

Lemma merge_result_counted db remote chunks st c :
  counted db st → counted db (merge_result remote chunks st c).
Proof.
  intros Hst. apply merge_result_invariant; [done|].
  intros chunk_start size datasets _ _ _.
  destruct Hst as (Hcount & Hsaved & Hlen).
  unfold counted, merged. cbn [chunk_count total_saved handed table].
  rewrite length_app, fmap_app, foldr_app. cbn [length fmap list_fmap foldr].
  change (reported (Handed datasets (write_fault c) (existing_urls st)))
    with (if strikes (write_fault c) (length datasets) then 0
          else Z.of_nat (length datasets)).
  assert (∀ (l : list Z) a, foldr Z.add a l = foldr Z.add 0 l + a) as Hfold.
  { induction l as [|x l IH]; intros a; cbn; [lia|]. rewrite IH. lia. }
  rewrite (Hfold _ (_ + 0)).
  split; [lia|]. split; [lia|].
  destruct (strikes _ _); [lia|].
  pose proof (insert_all_length (table st) (batch_tuple <$> datasets)) as H.
  rewrite length_fmap in H. lia.
Qed.

(** X10: when [main] ends, [chunk_count] is the number of calls of the
    writer, [total_saved] is the sum of the lengths of the batches saved
    without a fault, and the table has grown by at most [total_saved] rows:
    the total printed is an upper bound of the rows inserted. *)
Theorem drain_counters env db :
  chunk_count (main env db).2 = Z.of_nat (length (handed (main env db).2))
  ∧ total_saved (main env db).2
    = foldr Z.add 0 (reported <$> handed (main env db).2)
  ∧ Z.of_nat (length (table (main env db).2)) - Z.of_nat (length db)
    ≤ total_saved (main env db).2.
Proof.
  assert (counted db (main env db).2) as (H1 & H2 & H3).
  { apply main_invariant.
    - intros urls. unfold counted. cbn. lia.
    - intros chunks st c. apply merge_result_counted. }
  split; [done|]. split; [done|]. lia.
Qed.

Lemma merge_result_grown remote chunks db st c :
  grown_from remote chunks db st →
  grown_from remote chunks db (merge_result remote chunks st c).
Proof.
  intros Hst. apply merge_result_invariant; [done|].
  intros chunk_start size datasets Hchunk -> _.
  destruct Hst as (added & Htable & Hadded).
  unfold grown_from, merged. cbn [table].
  destruct (strikes _ _); [by exists added|].
  destruct (insert_all_added (table st)
              (batch_tuple <$> fresh_records (snapshot st (staleness c))
                                 (page remote chunk_start size)))
    as (more & -> & Hmore).
  exists (added ++ more). rewrite Htable, app_assoc. split; [done|].
  intros r [Hr|Hr]%elem_of_app; [by apply Hadded|].
  apply Hmore, list_elem_of_fmap in Hr as (d & -> & Hd).
  apply elem_of_fresh_records in Hd as (e & He & Hlen & _ & ->).
  exists (chunk_start, size), e. split; [|done].
  by eapply list_elem_of_lookup_2.
Qed.

Lemma from_pages_normalised remote chunks r :
  from_pages remote chunks r →
  ∃ dataset_id, r = batch_tuple (europa_metadata dataset_id)
                ∧ (3 ≤ length dataset_id)%nat
                ∧ strip dataset_id = dataset_id.
Proof.
  intros (chunk & e & _ & _ & Hlen & ->). exists (dataset_id_of e).
  split; [done|]. split; [done|]. apply strip_idemp.
Qed.

Lemma main_grown env db :
  ∃ chunks, grown_from (remote env) chunks db (main env db).2.
Proof.
  assert (∀ chunks urls,
            grown_from (remote env) chunks db (start_job db urls)) as Hstart.
  { intros chunks urls. exists []. cbn. rewrite app_nil_r. split; [done|].
    by intros r ?%not_elem_of_nil. }
  rewrite main_eq. destruct (strikes _ _); [exists []; apply Hstart|].
  eexists. apply (main_from_invariant (grown_from (remote env) _ db)).
  - apply Hstart.
  - intros st c. apply merge_result_grown.
Qed.

(** X11: [main] only appends: the rows that the table had are still
    there, in place and unchanged, and every row added is the tuple of a
    normalised record whose identifier is trimmed and has at least 3
    characters: a row of the platform [data.europa.eu] without dates, keyed
    by the URL template. *)
Theorem main_appends_normalised_rows env db :
  ∃ added,
    table (main env db).2 = db ++ added
    ∧ ∀ r, r ∈ added →
        ∃ dataset_id,
          r = batch_tuple (europa_metadata dataset_id)
          ∧ (3 ≤ length dataset_id)%nat
          ∧ strip dataset_id = dataset_id
          ∧ source_url r = VStr (url_prefix ++ dataset_id)
          ∧ source_platform r = VStr (py "data.europa.eu")
          ∧ publication_date r = None
          ∧ last_modified_date r = None.
Proof.
  destruct (main_grown env db) as (chunks & added & Htable & Hadded).
  exists added. split; [done|]. intros r Hr.
  destruct (from_pages_normalised _ _ r (Hadded r Hr))
    as (dataset_id & -> & Hlen & Hstrip).
  exists dataset_id. repeat split; done.
Qed.

(** X12: if [main] returns the final statistics, they are the counts of
    the table as the job leaves it; the count of the platform has not gone
    down, and the total has grown by as much as the count of the platform:
    every row added is a row of [data.europa.eu]. *)
Theorem final_statistics_consistent env db total_europa total_all :
  (main env db).1 = Ret (total_europa, total_all) →
  total_europa = count_europa (table (main env db).2)
  ∧ total_all = count_all (table (main env db).2)
  ∧ count_europa db ≤ total_europa
  ∧ total_all - count_all db = total_europa - count_europa db.
Proof.
  intros Hret.
  assert (total_europa = count_europa (table (main env db).2)
          ∧ total_all = count_all (table (main env db).2)) as [-> ->].
  { revert Hret. rewrite main_eq. destruct (strikes _ _); [done|].
    rewrite main_from_eq. cbv zeta.
    destruct (start_pool _ _ _ _); [|done]. cbn [fst snd].
    destruct (strikes _ _); [done|]. by intros [= <- <-]. }
  split; [done|]. split; [done|].
  destruct (main_grown env db) as (chunks & added & -> & Hadded).
  assert (filter (λ r, is_europa r = true) added = added) as Hall.
  { clear Hret. induction added as [|r added IH]; [done|].
    destruct (from_pages_normalised _ _ r (Hadded r (list_elem_of_here _ _)))
      as (dataset_id & -> & _).
    rewrite filter_cons_True by done. f_equal. apply IH.
    intros r' Hr'. by apply Hadded, list_elem_of_further. }
  unfold count_europa, count_all. rewrite filter_app, !length_app, Hall. lia.
Qed.

Lemma final_statistics_consistent_witness :
  (2 : Z) = count_europa (table (main first_run []).2)
  ∧ (2 : Z) = count_all (table (main first_run []).2)
  ∧ count_europa [] ≤ 2
  ∧ 2 - count_all [] = 2 - count_europa [].
Proof.
  apply (final_statistics_consistent first_run [] 2 2).
  vm_compute. reflexivity.
Defined.

Lemma merge_result_batches_known remote chunks st c :
  batches_known st → batches_known (merge_result remote chunks st c).
Proof.
  intros Hst. apply merge_result_invariant; [done|].
  intros chunk_start size datasets _ _ _ h d.
  unfold merged. cbn [handed existing_urls].
  intros [Hh|Hh%list_elem_of_singleton]%elem_of_app Hd.
  - apply elem_of_union_r. by eapply Hst.
  - subst h. cbn in Hd. apply elem_of_union_l, elem_of_list_to_set.
    by apply list_elem_of_fmap_2.
Qed.

(** X13: the key of every record handed to the writer is in
    [existing_urls] when [main] ends, also when the write of its batch
    failed and nothing of it is in the table. *)
Theorem handed_keys_become_known env db h d :
  h ∈ handed (main env db).2 → d ∈ batch h →
  key_of d ∈ existing_urls (main env db).2.
Proof.
  revert h d. change (batches_known (main env db).2).
  apply main_invariant.
  - by intros urls h d ?%not_elem_of_nil.
  - intros chunks st c. apply merge_result_batches_known.
Qed.

Lemma handed_keys_become_known_witness :
  table (main failing_write []).2 = []
  ∧ key_of abc_record ∈ existing_urls (main failing_write []).2.
Proof.
  split; [vm_compute; reflexivity|].
  apply (handed_keys_become_known failing_write []
           (Handed [abc_record] CommitFault ∅) abc_record).
  - vm_compute. apply list_elem_of_here.
  - apply list_elem_of_here.
Defined.

(** ** Edges of the orchestration *)

Lemma partition_small start_offset batch_size :
  batch_size < chunk_size → partition start_offset batch_size chunk_size = [].
Proof.
  intros Hsmall. unfold partition, make_chunks.
  rewrite seqZ_nil; [done|].
  assert (batch_size `div` chunk_size < 1); [|lia].
  apply Z.div_lt_upper_bound; [done|]. unfold chunk_size in *. lia.
Qed.

(** X14: a volume below the size of one chunk, zero and negative
    numbers included, makes no chunk: the job fetches nothing, hands nothing
    to the writer and leaves the table as it was. *)
Theorem small_volume_fetches_nothing current_count env db :
  (sizes (typed env)).1 < chunk_size →
  table (main_from current_count env db).2 = db
  ∧ handed (main_from current_count env db).2 = []
  ∧ total_saved (main_from current_count env db).2 = 0
  ∧ chunk_count (main_from current_count env db).2 = 0.
Proof.
  intros Hsmall.
  apply (main_from_invariant
           (λ st, table st = db ∧ handed st = [] ∧ total_saved st = 0
                  ∧ chunk_count st = 0)).
  - done.
  - intros st c Hst. unfold merge_result.
    by rewrite partition_small, lookup_nil.
Qed.

Lemma small_volume_fetches_nothing_witness :
  table (main_from 0 small_job []).2 = []
  ∧ handed (main_from 0 small_job []).2 = []
  ∧ total_saved (main_from 0 small_job []).2 = 0
  ∧ chunk_count (main_from 0 small_job []).2 = 0.
Proof.
  apply (small_volume_fetches_nothing 0 small_job []).
  vm_compute. reflexivity.
Defined.

Lemma merge_result_fruitless remote chunks st c :
  fruitless remote chunks c = true → merge_result remote chunks st c = st.
Proof.
  unfold fruitless. intros H. rewrite merge_result_eq.
  destruct (chunks !! chunk_index c) as [[chunk_start size]|]; [|done].
  destruct (worker_died c); [done|]. cbn in H.
  apply bool_decide_eq_true in H. by rewrite H.
Qed.

(** X15: a failure is local.  A result whose worker died, or whose
    request failed, was answered with another status than 200 or with a body
    that is not a list, leaves the job as if the chunk had not been there:
    the results before and after it are merged in the same way. *)
Theorem fruitless_result_leaves_no_trace remote chunks st cs1 c cs2 :
  fruitless remote chunks c = true →
  foldl (merge_result remote chunks) st (cs1 ++ c :: cs2)
  = foldl (merge_result remote chunks) st (cs1 ++ cs2).
Proof.
  intros H. rewrite !foldl_app. cbn [foldl].
  by rewrite merge_result_fruitless.
Qed.

Lemma fruitless_result_leaves_no_trace_witness :
  foldl (merge_result (λ _ offset, if bool_decide (offset = 0)
                                   then Response 503 None
                                   else Response 200 (Some (JsonList [abc])))
           [(0, 5000); (5000, 5000)]) (start_job [] ∅)
    ([] ++ Completion 0 0 false NoFault :: [Completion 1 0 false NoFault])
  = foldl (merge_result (λ _ offset, if bool_decide (offset = 0)
                                     then Response 503 None
                                     else Response 200 (Some (JsonList [abc])))
             [(0, 5000); (5000, 5000)]) (start_job [] ∅)
      ([] ++ [Completion 1 0 false NoFault]).
Proof.
  apply (fruitless_result_leaves_no_trace _ [(0, 5000); (5000, 5000)]
           (start_job [] ∅) [] (Completion 0 0 false NoFault)
           [Completion 1 0 false NoFault]).
  vm_compute. reflexivity.
Defined.

(** After a clean run the page of every chunk is stored. *)
Lemma clean_run_pages_stored current_count env db chunk :
  clean_run current_count env = true →
  chunk ∈ partition current_count (sizes (typed env)).1 chunk_size →
  page_stored (remote env) chunk (table (main_from current_count env db).2).
Proof.
  intros Hclean [i Hchunk]%list_elem_of_lookup.
  destruct (clean_run_parts current_count env Hclean)
    as (Hpool & Hundisturbed & Hcovers).
  rewrite main_from_eq. cbv zeta. rewrite Hpool. cbn [snd].
  destruct (covers_lookup _ _ i chunk Hcovers Hchunk) as (c & Hc & <-).
  eapply drain_clean; [|done|done|done].
  apply start_job_known.
Qed.

(** X16: after a run in which every chunk completes and nothing fails,
    the keys of the table are those it had and those of the accepted
    entries of the pages of the chunks, whatever the order of completion and
    whatever copies of the key set the workers received. *)
Theorem clean_run_key_set current_count env db k :
  clean_run current_count env = true →
  k ∈ keys (table (main_from current_count env db).2) ↔
  k ∈ keys db
  ∨ ∃ chunk e,
      chunk ∈ partition current_count (sizes (typed env)).1 chunk_size
      ∧ e ∈ page (remote env) chunk.1 chunk.2
      ∧ (3 ≤ length (dataset_id_of e))%nat
      ∧ k = entry_key e.
Proof.
  intros Hclean. split.
  - assert (grown_from (remote env)
              (partition current_count (sizes (typed env)).1 chunk_size) db
              (main_from current_count env db).2)
      as (added & -> & Hadded).
    { apply (main_from_invariant (grown_from (remote env) _ db)).
      - intros urls. exists []. cbn. rewrite app_nil_r. split; [done|].
        by intros r ?%not_elem_of_nil.
      - intros st c. apply merge_result_grown. }
    rewrite keys_app. intros [Hk|Hk]%elem_of_app; [by left|right].
    apply list_elem_of_fmap in Hk as (r & -> & Hr).
    destruct (Hadded r Hr) as (chunk & e & Hchunk & He & Hlen & ->).
    by exists chunk, e.
  - intros [Hk|(chunk & e & Hchunk & He & Hlen & ->)].
    + eapply keys_prefix; [|done].
      rewrite main_from_eq. cbv zeta.
      destruct (start_pool _ _ _ _); [|done]. apply drain_table_prefix.
    + by apply (clean_run_pages_stored current_count env db chunk).
Qed.

Lemma clean_run_key_set_witness :
  entry_key xyz ∈ keys (table (main_from 0 first_run []).2) ↔
  entry_key xyz ∈ keys []
  ∨ ∃ chunk e,
      chunk ∈ partition 0 (sizes (typed first_run)).1 chunk_size
      ∧ e ∈ page (remote first_run) chunk.1 chunk.2
      ∧ (3 ≤ length (dataset_id_of e))%nat
      ∧ entry_key xyz = entry_key e.
Proof.
  apply (clean_run_key_set 0 first_run [] (entry_key xyz)).
  vm_compute. reflexivity.
Defined.

(** X17: for a positive chunk size, every chunk has that size, the
    chunks start at the start offset and follow one another without a gap,
    and an offset of the range of the whole chunks lies in exactly one of
    them. *)
Theorem partition_tiles_whole_chunks start_offset batch_size size :
  0 < size →
  (∀ i c, partition start_offset batch_size size !! i = Some c →
     c = (start_offset + Z.of_nat i * size, size))
  ∧ length (partition start_offset batch_size size)
    = Z.to_nat (batch_size `div` size)
  ∧ ∀ x, start_offset ≤ x < start_offset + batch_size `div` size * size →
      ∃ i c, partition start_offset batch_size size !! i = Some c
             ∧ in_chunk x c
             ∧ ∀ j c', partition start_offset batch_size size !! j = Some c' →
                       in_chunk x c' → j = i.
Proof.
  intros Hsize. split; [|split].
  - by intros i c [-> _]%lookup_partition.
  - unfold partition, make_chunks. by rewrite length_fmap, length_seqZ.
  - intros x Hx.
    destruct (proj2 (partition_covers start_offset batch_size size x Hsize) Hx)
      as (c & [i Hi]%list_elem_of_lookup & Hin).
    exists i, c. split; [done|]. split; [done|].
    intros j c' Hj Hin'.
    by apply (partition_disjoint start_offset batch_size size j i c' c x).
Qed.

Lemma partition_tiles_whole_chunks_witness :
  (∀ i c, partition 100 12 5 !! i = Some c →
     c = (100 + Z.of_nat i * 5, 5))
  ∧ length (partition 100 12 5) = Z.to_nat (12 `div` 5)
  ∧ ∀ x, 100 ≤ x < 100 + 12 `div` 5 * 5 →
      ∃ i c, partition 100 12 5 !! i = Some c
             ∧ in_chunk x c
             ∧ ∀ j c', partition 100 12 5 !! j = Some c' →
                       in_chunk x c' → j = i.
Proof. apply (partition_tiles_whole_chunks 100 12 5). lia. Defined.

(** X18: the prompts never make [main] fail.  Two acceptable answers
    are taken as typed, an empty answer standing for the default; when
    either prompt is answered with text that is not a number, or the input
    ends, both sizes fall back to the defaults, also a batch size that was
    typed well. *)
Theorem read_sizes_falls_back lines :
  ∃ batch_size num_workers,
    read_sizes lines = Ret (batch_size, num_workers)
    ∧ (Garbage ∈ take 2 lines ∨ (length lines < 2)%nat →
       (batch_size, num_workers) = (100000, 8))
    ∧ (∀ z w rest, lines = Number z :: Number w :: rest →
       (batch_size, num_workers) = (z, w))
    ∧ (∀ rest, lines = Blank :: Blank :: rest →
       (batch_size, num_workers) = (100000, 8)).
Proof.
  destruct lines as [|l1 [|l2 lines]].
  - exists 100000, 8. repeat split; done.
  - exists 100000, 8. split; [by destruct l1|]. repeat split; done.
  - destruct l1 as [|z|], l2 as [|w|];
      eexists _, _; (split; [reflexivity|]);
      (split; [|split; [intros ???; by intros [= -> ->] || by intros [=]
                       |intros ?; by intros [=]]]);
      intros [Hg|Hlen]; try (cbn in Hlen; lia); try reflexivity;
      cbn in Hg; repeat (apply elem_of_cons in Hg as [Hg|Hg]; [done|]);
      by apply not_elem_of_nil in Hg.
Qed.

Lemma read_sizes_falls_back_witness :
  ∃ batch_size num_workers,
    read_sizes half_typed = Ret (batch_size, num_workers)
    ∧ (batch_size, num_workers) = (100000, 8).
Proof.
  destruct (read_sizes_falls_back half_typed) as (b & w & E & H & _).
  exists b, w. split; [exact E|]. apply H. left.
  apply list_elem_of_further, list_elem_of_here.
Defined.
